(** * roBrowser: the network manager and the file manager

    Shallow embeddings of two modules of roBrowser.

    Core/FileManager.js (module [FileManager]): the lookup of a file in
    the local file system, the game archives and the remote client, and
    its conversion by extension.

    Network/NetworkManager.js (module [NetworkManager]): the packet
    registry ([registerPacket], [hookPacket], [guessPacketVer]), the stream
    reassembler ([receive]) and the socket bookkeeping ([connect],
    [sendPacket], [send], [onClose], [close], [setPing]).

    Module-level variables of the JavaScript files become fields of
    explicit state records; calls into collaborators (the socket object,
    PacketCrypt, timers, the UI, handlers bound by the application,
    requests to the remote host) are recorded in the order in which the
    code makes them. *)

From Stdlib Require Import ZArith NArith List Lia Strings.String Strings.Ascii Strings.Byte DecimalString.
From stdpp Require Import base option list gmap strings.

(** * Core/FileManager.js

    The file manager looks a file up in the local file system, then in
    the game archives in the order in which they were added, then on the
    remote client, and turns what it finds into a value by the extension
    of the file name.

    A JavaScript string is a Rocq [string], one character for one UTF-16
    code unit; this covers the strings of code units below 256, which is
    what the names of a game archive are once read as ISO-8859-1. *)

Module FileManager.

Definition code (c : ascii) : N := N_of_ascii c.

(** The class [\s] of regular expressions, below 256: tab, line feed,
    vertical tab, form feed, carriage return, space, no-break space. *)
Definition is_space (c : ascii) : bool :=
  ((9 <=? code c) && (code c <=? 13) || (code c =? 32) || (code c =? 160))%N.

(** The characters that [.] does not match, below 256. *)
Definition is_line_terminator (c : ascii) : bool :=
  ((code c =? 10) || (code c =? 13))%N.

Fixpoint trim_start (s : string) : string :=
  match s with
  | String c rest => if is_space c then trim_start rest else s
  | EmptyString => EmptyString
  end.

Fixpoint trim_end (s : string) : string :=
  match s with
  | String c rest =>
      if is_space c && String.eqb (trim_end rest) "" then EmptyString
      else String c (trim_end rest)
  | EmptyString => EmptyString
  end.

(** [filename.replace(/^\s+|\s+$/g, '')] *)
Definition trim (s : string) : string := trim_end (trim_start s).

(** [filename.replace(/\//g, '\\')] *)
Fixpoint to_backslashes (s : string) : string :=
  match s with
  | String c rest =>
      String (if Ascii.eqb c "/" then "\"%char else c) (to_backslashes rest)
  | EmptyString => EmptyString
  end.

Fixpoint ends_with (suffix s : string) : bool :=
  String.eqb s suffix ||
  match s with
  | String _ rest => ends_with suffix rest
  | EmptyString => false
  end.

(** [filename.match(/\.(mp3|wav)$/)], as a condition *)
Definition is_sound (filename : string) : bool :=
  ends_with ".mp3" filename || ends_with ".wav" filename.

(** A string that [[^\.]+$] matches whole: not empty, without a dot. *)
Fixpoint dotless_tail (s : string) : bool :=
  match s with
  | String c EmptyString => negb (Ascii.eqb c ".")
  | String c rest => negb (Ascii.eqb c ".") && dotless_tail rest
  | EmptyString => false
  end.

(** [filename.match(/.[^\.]+$/)]: the leftmost match, or null. *)
Fixpoint match_extension (s : string) : option string :=
  match s with
  | String c rest =>
      if negb (is_line_terminator c) && dotless_tail rest then Some s
      else match_extension rest
  | EmptyString => None
  end.

(** [substr(1)] *)
Definition substr1 (s : string) : string :=
  match s with
  | String _ rest => rest
  | EmptyString => EmptyString
  end.

(** [toLowerCase], below 256: A to Z, and the capital letters from
    U+00C0 to U+00DE, the multiplication sign U+00D7 apart. *)
Definition lower (c : ascii) : ascii :=
  if ((65 <=? code c) && (code c <=? 90)
      || (192 <=? code c) && (code c <=? 222) && negb (code c =? 215))%N
  then ascii_of_N (code c + 32)
  else c.

Fixpoint toLowerCase (s : string) : string :=
  match s with
  | String c rest => String (lower c) (toLowerCase rest)
  | EmptyString => EmptyString
  end.

(** The extension that [load] switches on; [None] where [match] gives
    null and [toString] throws a TypeError. *)
Definition extension (filename : string) : option string :=
  (λ m, toLowerCase (substr1 m)) <$> match_extension filename.

(** ** Collaborators *)

(** A file of the local file system, with the bytes that a
    [FileReaderSync] reads from it. *)
Record File := { file_name : string; file_bytes : list byte }.

(** A loaded game archive: [grf.getFile(path)] gives a buffer or a falsy
    value. *)
Record GameFile := { getFile : string → option (list byte) }.

(** A synchronous request: [send] throws, or there is a status and a
    response, which may be null. *)
Inductive XhrResult :=
  | SendThrows
  | Response (status : N) (response : option (list byte)).

(** Modelled from the spec: Core/FileSystem and Loaders/GameFile are not
    part of the sources at hand; the spec treats them, like the remote
    host, as opaque sources of binary blobs. [GameFile_load] stands for
    [new GameFile()] followed by [grf.load(file)]: the archive, or the
    message of what [load] throws. *)
Class Collaborators := {
  FileSystem_getFile : string → option File;
  GameFile_load : File → GameFile + string;
  XMLHttpRequest_get : string → XhrResult
}.

(** What [get] returns when it is not null. *)
Inductive Value :=
  | ArrayBuffer (bytes : list byte)
  | Url (s : string).

(** ToBoolean of what [get] and [getHTTP] return. *)
Definition truthy (v : option Value) : bool :=
  match v with
  | Some (ArrayBuffer _) => true
  | Some (Url s) => negb (String.eqb s "")
  | None => false
  end.

Inductive Thrown :=
  | Error (message : string)
  | TypeError.

Inductive Outcome (A : Type) :=
  | Return (a : A)
  | Throw (e : Thrown).
Arguments Return {A} a.
Arguments Throw {A} e.

(** Requests sent and callbacks called, in order. *)
Inductive Call :=
  | Request (url : string)
  | Loaded (name : string)
  | Failed (name message : string).

(** The fields of the [FileManager] object. A callback returns ([None])
    or throws an error with a message. *)
Record Manager := {
  remoteClient : string;
  gameFiles : list GameFile;
  onGameFileLoaded : option (string → option string);
  onGameFileError : option (string → string → option string)
}.

(** What [load] returns when it is not null. The loaders are not part of
    the sources at hand: a loaded asset is written as its loader applied
    to the buffer. *)
Inductive Asset :=
  | ObjectURL (type : string) (blob : Value)
  | Raw (buffer : Value)
  | Text (str : string)
  | Sprite (to_rgba : bool) (buffer : Value)
  | Loader (ext : string) (buffer : Value).

(** The loop of the text branch of [load] over [new Uint8Array(buffer)]:
    characters up to the first zero byte. *)
Fixpoint text_of (uint8 : list byte) : string :=
  match uint8 with
  | b :: rest =>
      if Byte.eqb b x00 then EmptyString
      else String (ascii_of_byte b) (text_of rest)
  | [] => EmptyString
  end.

(** [new Uint8Array(buffer)]: over an ArrayBuffer, its bytes; made from a
    string, an array of zeros or an empty one. *)
Definition text_of_value (buffer : Value) : string :=
  match buffer with
  | ArrayBuffer bytes => text_of bytes
  | Url _ => EmptyString
  end.

Definition one_of (ext : string) (l : list string) : bool :=
  existsb (String.eqb ext) l.

(** The [switch] of [load]. *)
Definition convert (ext : string) (to_rgba : bool) (buffer : Value) : Asset :=
  if one_of ext ["jpg"; "jpeg"; "bmp"; "gif"; "png"] then
    ObjectURL ("image/" +:+ ext) buffer
  else if String.eqb ext "tga" then Raw buffer
  else if one_of ext ["wav"; "mp3"] then
    match buffer with
    | ArrayBuffer _ => ObjectURL ("audio/" +:+ ext) buffer
    | Url _ => Raw buffer
    end
  else if one_of ext ["txt"; "xml"; "lua"] then Text (text_of_value buffer)
  else if String.eqb ext "spr" then Sprite to_rgba buffer
  else if one_of ext ["rsw"; "gnd"; "gat"; "rsm"; "act"; "lub"] then
    Loader ext buffer
  else Raw buffer.

(** The loop of [get] over the game archives. *)
Fixpoint search_archives (path : string) (fileList : list GameFile)
    : option (list byte) :=
  match fileList with
  | grf :: rest =>
      match getFile grf path with
      | Some buffer => Some buffer
      | None => search_archives path rest
      end
  | [] => None
  end.

Section Operations.
Context `{C : Collaborators}.

Definition set_gameFiles (l : list GameFile) (m : Manager) : Manager :=
  {| remoteClient := remoteClient m; gameFiles := l;
     onGameFileLoaded := onGameFileLoaded m;
     onGameFileError := onGameFileError m |}.

(** The [catch] of [addGameFile]. *)
Definition report_error (name message : string) (calls : list Call)
    (m : Manager) : Outcome Manager * list Call :=
  match onGameFileError m with
  | Some callback =>
      match callback name message with
      | None => (Return m, calls ++ [Failed name message])
      | Some thrown => (Throw (Error thrown), calls ++ [Failed name message])
      end
  | None => (Return m, calls)
  end.

Definition addGameFile (file : File) (m : Manager) : Outcome Manager * list Call :=
  match GameFile_load file with
  | inl grf =>
      let m := set_gameFiles (gameFiles m ++ [grf]) m in
      match onGameFileLoaded m with
      | Some callback =>
          match callback (file_name file) with
          | None => (Return m, [Loaded (file_name file)])
          | Some thrown =>
              report_error (file_name file) thrown [Loaded (file_name file)] m
          end
      | None => (Return m, [])
      end
  | inr message => report_error (file_name file) message [] m
  end.

(** The last loop of [init]. *)
Fixpoint addGameFiles (files : list File) (m : Manager)
    : Outcome Manager * list Call :=
  match files with
  | file :: files =>
      match addGameFile file m with
      | (Return m, calls) =>
          let '(r, rest) := addGameFiles files m in (r, calls ++ rest)
      | (Throw e, calls) => (Throw e, calls)
      end
  | [] => (Return m, [])
  end.

Definition clean (m : Manager) : Manager := set_gameFiles [] m.

Definition getHTTP (filename : string) (m : Manager) : option Value * list Call :=
  if negb (String.eqb (remoteClient m) "") then
    if is_sound filename then (Some (Url (remoteClient m +:+ filename)), [])
    else
      let url := remoteClient m +:+ filename in
      match XMLHttpRequest_get url with
      | SendThrows => (None, [Request url])
      | Response status response =>
          match response with
          | Some bytes =>
              if (status =? 200)%N && negb (length bytes =? 0)
              then (Some (ArrayBuffer bytes), [Request url])
              else (None, [Request url])
          | None => (None, [Request url])
          end
      end
  else (None, []).

Definition get (filename : string) (noerror : bool) (m : Manager)
    : Outcome (option Value) * list Call :=
  let filename := trim filename in
  match FileSystem_getFile filename with
  | Some file => (Return (Some (ArrayBuffer (file_bytes file))), [])
  | None =>
      let path := to_backslashes filename in
      match search_archives path (gameFiles m) with
      | Some buffer => (Return (Some (ArrayBuffer buffer)), [])
      | None =>
          let '(buffer, calls) := getHTTP filename m in
          if negb (truthy buffer) && negb noerror then
            (Throw (Error "FileManager::get() - Can't find file in GRF and remote host"),
             calls)
          else (Return buffer, calls)
      end
  end.

Definition load (filename : string) (noerror : bool) (to_rgba : bool)
    (m : Manager) : Outcome (option Asset) * list Call :=
  let filename := trim filename in
  match extension filename with
  | None => (Throw TypeError, [])
  | Some ext =>
      match get filename noerror m with
      | (Throw e, calls) => (Throw e, calls)
      | (Return buffer, calls) =>
          if negb (truthy buffer) then (Return None, calls)
          else
            match buffer with
            | Some buffer => (Return (Some (convert ext to_rgba buffer)), calls)
            | None => (Return None, calls)
            end
      end
  end.

End Operations.

(** ** A concrete instance *)

Module Demo.

Definition sprite_bytes : list byte := [x53; x50; x01; x02].
Definition readme_bytes : list byte := [x68; x69; x00; x21].

(** One local file, [local.txt]; an archive file [data.grf] that loads
    and [broken.grf] that does not; a remote host that has [remote.txt]. *)
#[export] Instance collaborators : Collaborators := {|
  FileSystem_getFile := λ name,
    if String.eqb name "local.txt"
    then Some {| file_name := "local.txt"; file_bytes := [x6c; x6f] |}
    else None;
  GameFile_load := λ file,
    if String.eqb (file_name file) "data.grf"
    then inl {| getFile := λ path,
                  if String.eqb path "data\readme.txt" then Some readme_bytes
                  else if String.eqb path "local.txt" then Some [x67; x72; x66]
                  else None |}
    else inr "not a GRF";
  XMLHttpRequest_get := λ url,
    if String.eqb url "http://host/remote.txt"
    then Response 200 (Some [x6f; x6b])
    else Response 404 None
|}.

Definition empty (remote : string) : Manager :=
  {| remoteClient := remote; gameFiles := [];
     onGameFileLoaded := Some (λ _, None);
     onGameFileError := Some (λ _ _, None) |}.

Definition data_grf : File := {| file_name := "data.grf"; file_bytes := [] |}.
Definition broken_grf : File := {| file_name := "broken.grf"; file_bytes := [] |}.

Definition with_archive (remote : string) : Manager :=
  match addGameFile data_grf (empty remote) with
  | (Return m, _) => m
  | (Throw _, _) => empty remote
  end.

End Demo.

End FileManager.

Module NetworkManager.

(** ** JavaScript values *)

(** A packet identifier as the code handles it: [readUShort] yields a
    number, while [Object.keys(PacketRegister)] yields strings. *)
Inductive JsKey :=
  | KNum (n : N)
  | KStr (s : string).

(** ToBoolean: the number 0 and the empty string are falsy. *)
Definition truthy (k : JsKey) : bool :=
  match k with
  | KNum n => negb (N.eqb n 0)
  | KStr s => negb (String.eqb s "")
  end.

(** [!v] for a property that may be undefined. *)
Definition js_not (v : option JsKey) : bool :=
  match v with
  | Some k => negb (truthy k)
  | None => true
  end.

(** ToPropertyKey: [Packets.list[id]] names the property by the decimal
    spelling of a number, and by a string itself. *)
Definition prop_name (k : JsKey) : string :=
  match k with
  | KNum n => NilEmpty.string_of_uint (N.to_uint n)
  | KStr s => s
  end.

Inductive Exception :=
  | NotYetRegister (fn : string) (packet_name : string)
  | TypeError
  | RangeError.

Inductive Result (A : Type) :=
  | Ok (a : A)
  | Throw (e : Exception).
Arguments Ok {A} a.
Arguments Throw {A} e.

(** ** Utils/BinaryReader *)

(** Modelled from the spec: Utils/BinaryReader is not part of the sources
    at hand. The spec describes a cursor over a byte sequence with
    bounds-checked, little-endian reads; [tell], [seek] (SEEK_SET),
    [length] and [readUShort] are the operations [receive] uses. *)
Record BinaryReader := { buffer : list byte; cursor : nat }.

Definition new_BinaryReader (b : list byte) : BinaryReader :=
  {| buffer := b; cursor := 0 |}.

Definition tell (fp : BinaryReader) : nat := cursor fp.

Definition fp_length (fp : BinaryReader) : nat := length (buffer fp).

Definition seek (index : nat) (fp : BinaryReader) : BinaryReader :=
  {| buffer := buffer fp; cursor := index |}.

(** The 16-bit little-endian value at a position; [None] stands for the
    RangeError of a read past the end. *)
Definition u16_at (b : list byte) (pos : nat) : option N :=
  match b !! pos, b !! S pos with
  | Some lo, Some hi => Some (Byte.to_N lo + 256 * Byte.to_N hi)%N
  | _, _ => None
  end.

Definition readUShort (fp : BinaryReader) : option (N * BinaryReader) :=
  match u16_at (buffer fp) (cursor fp) with
  | Some v => Some (v, seek (cursor fp + 2) fp)
  | None => None
  end.

(** [new Uint8Array(buffer, offset, count)] *)
Definition Uint8Array (b : list byte) (offset count : nat) : list byte :=
  take count (drop offset b).

(** ** PACKETVER *)

(** Modelled from the spec: Network/PacketVerManager and
    Network/PacketGuess are not part of the sources at hand. The spec
    gives the version range a minimum and a maximum, which guess hooks
    narrow from the length of a frame; [receive] compares the two. *)
Record PacketVer := { ver_min : N; ver_max : N }.

Definition GuessHook : Type := nat -> PacketVer -> PacketVer.

(** ** Packet definitions and reassembly *)

Section Packets.
Context {Data Handler : Type}.

(** [new packet.struct(fp, offset)]: the packet value, and the position at
    which the parser leaves the cursor of [fp]. *)
Definition Parser : Type := BinaryReader -> nat -> Data * nat.

(** A packet structure (a constructor function of PacketStructure). [sref]
    is the identity of the function object; its [id] property is mutable
    and lives in the registry state below. *)
Record Struct := {
  sref : nat;
  s_name : string;
  s_size : Z;
  s_parse : Parser
}.

Record Packets := {
  name : string;
  struct : Struct;
  size : Z;
  callback : option Handler;
  guess : option GuessHook
}.

(** [new Packets(name, struct, size)] *)
Definition new_Packets (name : string) (struct : Struct) (size : Z) : Packets :=
  {| name := name; struct := struct; size := size;
     callback := None; guess := None |}.

Definition set_callback (cb : Handler) (p : Packets) : Packets :=
  {| name := name p; struct := struct p; size := size p;
     callback := Some cb; guess := guess p |}.

Definition set_guess (cb : GuessHook) (p : Packets) : Packets :=
  {| name := name p; struct := struct p; size := size p;
     callback := callback p; guess := Some cb |}.

(** [Packets.list], a JavaScript array used as a map from property names,
    and the [id] property of every struct object ([struct.id]). *)
Record Registry := {
  Packets_list : gmap string Packets;
  struct_id : gmap nat JsKey
}.

Definition empty_Registry : Registry :=
  {| Packets_list := ∅; struct_id := ∅ |}.

Definition registerPacket (id : JsKey) (struct : Struct) (r : Registry) : Registry :=
  {| Packets_list :=
       <[prop_name id := new_Packets (s_name struct) struct (s_size struct)]>
         (Packets_list r);
     struct_id := <[sref struct := id]> (struct_id r) |}.

(** The start-up loop of [Network()]: every key of PacketRegister, a
    string, is registered with its struct. *)
Definition register_all (table : list (string * Struct)) (r : Registry) : Registry :=
  foldl (fun r kv => registerPacket (KStr kv.1) kv.2 r) r table.

(** [packet.id] *)
Definition packet_id (r : Registry) (packet : Struct) : option JsKey :=
  struct_id r !! sref packet.

Definition update_packet (fn : string) (f : Packets -> Packets)
    (packet : Struct) (r : Registry) : Result Registry :=
  if js_not (packet_id r packet) then
    Throw (NotYetRegister fn (s_name packet))
  else
    match packet_id r packet with
    | Some id =>
        match Packets_list r !! prop_name id with
        | Some p =>
            Ok {| Packets_list := <[prop_name id := f p]> (Packets_list r);
                  struct_id := struct_id r |}
        | None => Throw TypeError
        end
    | None => Throw TypeError
    end.

Definition hookPacket (packet : Struct) (cb : Handler) (r : Registry) : Result Registry :=
  update_packet "HookPacket" (set_callback cb) packet r.

Definition guessPacketVer (packet : Struct) (cb : GuessHook) (r : Registry) : Result Registry :=
  update_packet "GuessPacketVer" (set_guess cb) packet r.

(** [Network()] exports [hookPacket] and [guessPacketVer] and keeps
    [registerPacket] to itself: once the start-up loop has run, the rest
    of the program changes the registry through these two only. *)
Inductive Binding :=
  | Hook (packet : Struct) (cb : Handler)
  | GuessVer (packet : Struct) (cb : GuessHook).

Definition bind (b : Binding) (r : Registry) : Result Registry :=
  match b with
  | Hook packet cb => hookPacket packet cb r
  | GuessVer packet cb => guessPacketVer packet cb r
  end.

(** Successive bindings; one that throws leaves the registry as it was. *)
Definition bind_all (bindings : list Binding) (r : Registry) : Registry :=
  foldl (fun r b => match bind b r with Ok r' => r' | Throw _ => r end) r bindings.

(** [Packets.list[id]] for an identifier read off the wire. *)
Definition lookup_packet (packets : gmap string Packets) (id : N) : option Packets :=
  packets !! prop_name (KNum id).

(** What [receive] does that is visible outside it, in order. *)
Inductive Event :=
  | ReadHook
  | NotRegister (id : N) (skipped : nat)
  | Guess (id : N) (length : nat)
  | Recv (id : N) (data : Data) (has_callback : bool)
  | Callback (h : Handler) (data : Data).

(** [read.callback] *)
Definition ReadCallback : Type := BinaryReader -> nat.

Record Reassembly := {
  _save_buffer : option (list byte);
  read_callback : option ReadCallback;
  PACKETVER : PacketVer
}.

(** [read(callback)] *)
Definition read (cb : ReadCallback) (st : Reassembly) : Reassembly :=
  {| _save_buffer := _save_buffer st; read_callback := Some cb;
     PACKETVER := PACKETVER st |}.

(** How one turn of the [while] loop of [receive] ends. *)
Inductive Step :=
  | Saved (save : list byte) (ver : PacketVer) (evs : list Event)
  | Break (evs : list Event)
  | Next (fp : BinaryReader) (ver : PacketVer) (evs : list Event)
  | Raise (e : Exception).

(** The header of a frame is its identifier, then its length if the
    packet is of variable size ([packet.size < 0 ? 4 : 2]). *)
Definition header_size (packet : Packets) : nat :=
  if (size packet <? 0)%Z then 4 else 2.

(** The lines of the loop from the version guess to the handler. *)
Definition parse_packet (id : N) (packet : Packets) (length : nat) (start : nat)
    (fp : BinaryReader) (ver : PacketVer) : Step :=
  let offset := start + length in
  let '(ver, guessed) :=
    match guess packet with
    | Some hook =>
        if negb (N.eqb (ver_min ver) (ver_max ver))
        then (hook length ver, [Guess id length])
        else (ver, [])
    | None => (ver, [])
    end in
  if fp_length fp <? offset then
    let offset := tell fp - header_size packet in
    Saved (Uint8Array (buffer fp) offset (fp_length fp - offset)) ver guessed
  else
    let '(data, pos) := s_parse (struct packet) fp offset in
    let fp := seek pos fp in
    let fp := if length =? 0 then fp else seek offset fp in
    Next fp ver
      (guessed ++ Recv id data (bool_decide (is_Some (callback packet))) ::
       match callback packet with
       | Some h => [Callback h data]
       | None => []
       end).

(** The [if (packet.size < 0) ... else ...] of the loop: the length of
    the frame and the reader after it, unless too few bytes remain. *)
Inductive FrameLength :=
  | TooShort
  | Length (length : nat) (fp : BinaryReader)
  | BadRead.

Definition packet_length (packet : Packets) (offset : nat) (fp : BinaryReader)
    : FrameLength :=
  if (size packet <? 0)%Z then
    if fp_length fp <=? offset + 4 then TooShort
    else
      match readUShort fp with
      | Some (length, fp) => Length (N.to_nat length) fp
      | None => BadRead
      end
  else Length (Z.to_nat (size packet)) fp.

(** One turn of the loop, entered with [fp.tell() < fp.length]. *)
Definition body (packets : gmap string Packets) (fp : BinaryReader)
    (ver : PacketVer) : Step :=
  let offset := tell fp in
  if fp_length fp <=? offset + 2 then
    Saved (Uint8Array (buffer fp) offset (fp_length fp - offset)) ver []
  else
    match readUShort fp with
    | None => Raise RangeError
    | Some (id, fp) =>
        match lookup_packet packets id with
        | None => Break [NotRegister id (fp_length fp - tell fp)]
        | Some packet =>
            match packet_length packet offset fp with
            | TooShort =>
                Saved (Uint8Array (buffer fp) offset (fp_length fp - offset)) ver []
            | Length length fp => parse_packet id packet length offset fp ver
            | BadRead => Raise RangeError
            end
        end
    end.

(** The [while] loop. Its result is the value assigned to [_save_buffer]
    ([None] for [null], after the loop ends or breaks), the version range
    and the events. [None] as a whole: the fuel ran out. *)
Fixpoint loop (fuel : nat) (packets : gmap string Packets) (fp : BinaryReader)
    (ver : PacketVer) : option (Result (option (list byte) * PacketVer * list Event)) :=
  match fuel with
  | O => None
  | S fuel =>
      if tell fp <? fp_length fp then
        match body packets fp ver with
        | Saved save ver evs => Some (Ok (Some save, ver, evs))
        | Break evs => Some (Ok (None, ver, evs))
        | Next fp ver evs =>
            match loop fuel packets fp ver with
            | Some (Ok (save, ver, rest)) => Some (Ok (save, ver, evs ++ rest))
            | other => other
            end
        | Raise e => Some (Throw e)
        end
      else Some (Ok (None, ver, []))
  end.

Definition receive (fuel : nat) (packets : gmap string Packets) (buf : list byte)
    (st : Reassembly) : option (Result (Reassembly * list Event)) :=
  let buffer :=
    match _save_buffer st with
    | Some saved => saved ++ buf
    | None => buf
    end in
  let fp := new_BinaryReader buffer in
  let '(fp, hooked) :=
    match read_callback st with
    | Some cb => (seek (cb fp) fp, [ReadHook])
    | None => (fp, [])
    end in
  match loop fuel packets fp (PACKETVER st) with
  | Some (Ok (save, ver, evs)) =>
      Some (Ok ({| _save_buffer := save; read_callback := None;
                   PACKETVER := ver |}, hooked ++ evs))
  | Some (Throw e) => Some (Throw e)
  | None => None
  end.

(** Successive [onMessage] notifications of the transport. *)
Fixpoint receive_all (fuel : nat) (packets : gmap string Packets)
    (chunks : list (list byte)) (st : Reassembly)
    : option (Result (Reassembly * list Event)) :=
  match chunks with
  | [] => Some (Ok (st, []))
  | buf :: chunks =>
      match receive fuel packets buf st with
      | Some (Ok (st, evs)) =>
          match receive_all fuel packets chunks st with
          | Some (Ok (st, rest)) => Some (Ok (st, evs ++ rest))
          | other => other
          end
      | other => other
      end
  end.

(** *** Frames on the wire *)

(** The calls of handlers among the events, in order. *)
Definition handler_call (e : Event) : option (Handler * Data) :=
  match e with
  | Callback h data => Some (h, data)
  | _ => None
  end.

Definition calls (evs : list Event) : list (Handler * Data) :=
  omap handler_call evs.

Definition frame_packet (packets : gmap string Packets) (f : list byte) : option Packets :=
  u16_at f 0 ≫= lookup_packet packets.

(** A frame of a registered packet: its first two bytes name the packet;
    its length is the packet's fixed size, or the value of its own length
    field; it holds its header at least. *)
Definition valid_frame (packets : gmap string Packets) (f : list byte) : bool :=
  match frame_packet packets f with
  | Some p =>
      if (size p <? 0)%Z
      then (4 <=? length f) && bool_decide (u16_at f 2 = Some (N.of_nat (length f)))
      else (2 <=? length f) && (Z.of_nat (length f) =? size p)%Z
  | None => false
  end.

(** The value that the packet's parser builds from a frame on its own. *)
Definition typed_value (p : Packets) (f : list byte) : Data :=
  (s_parse (struct p) {| buffer := f; cursor := header_size p |} (length f)).1.

Definition frame_value (packets : gmap string Packets) (f : list byte) : option Data :=
  (fun p => typed_value p f) <$> frame_packet packets f.

(** The handler call that a frame is due: none if no handler is bound. *)
Definition frame_call (packets : gmap string Packets) (f : list byte)
    : option (Handler * Data) :=
  p ← frame_packet packets f; h ← callback p; Some (h, typed_value p f).

(** The parser of the frame's packet builds its value from the bytes of
    the frame: wherever the frame lies in a buffer, with the cursor after
    the frame's header and the end offset at the frame's end, as [receive]
    calls it, the value is the one built from the frame on its own. *)
Definition reads_own_frame (packets : gmap string Packets) (f : list byte) : Prop :=
  ∀ p, frame_packet packets f = Some p →
    ∀ pre post : list byte,
      (s_parse (struct p)
         {| buffer := pre ++ f ++ post; cursor := length pre + header_size p |}
         (length pre + length f)).1
      = typed_value p f.

(** The stream does not end with a frame that is a bare header. *)
Definition ends_with_payload (packets : gmap string Packets)
    (frames : list (list byte)) : bool :=
  match last frames ≫= (fun f => (fun p => (f, p)) <$> frame_packet packets f) with
  | Some (f, p) => header_size p <? length f
  | None => true
  end.

(** The bytes [left] over at the head of the frames [todo] cannot be
    dispatched by the loop: it would save them. *)
Definition held_back (packets : gmap string Packets) (left : list byte)
    (todo : list (list byte)) : Prop :=
  match todo with
  | f :: _ =>
      match frame_packet packets f with
      | Some p => (header_size p <? length left) && (length f <=? length left) = false
      | None => True
      end
  | [] => True
  end.

(** Parsers that read forwards: none leaves the cursor before the place
    where it found it. *)
Definition advancing (packets : gmap string Packets) : Prop :=
  ∀ k p, packets !! k = Some p →
    ∀ (fp : BinaryReader) (offset : nat),
      cursor fp ≤ (s_parse (struct p) fp offset).2.

(** No packet of the registry has a guess hook. *)
Definition no_guess (packets : gmap string Packets) : Prop :=
  ∀ k p, packets !! k = Some p → guess p = None.

End Packets.

Arguments Parser : clear implicits.
Arguments Struct : clear implicits.
Arguments Packets : clear implicits.
Arguments Registry : clear implicits.
Arguments Binding : clear implicits.
Arguments Event : clear implicits.
Arguments Step : clear implicits.
Arguments Reassembly : clear implicits.

(** ** Sockets *)

(** Modelled from the spec: Network/PacketCrypt is not part of the sources
    at hand. The spec gives it a state and three operations: [init] arms
    the cipher, [process] transforms a buffer in place and advances the
    state, [reset] disarms it; the bytes of the transform are left open. *)
Class PacketCrypt := {
  CryptState : Type;
  crypt_init : CryptState -> CryptState;
  crypt_process : CryptState -> list byte -> CryptState * list byte;
  crypt_reset : CryptState -> CryptState
}.

(** The properties of a socket object that this file reads or writes.
    [connect] assigns [isZone]; [setPing] assigns [ping]; [close] reads
    [izZone], which nothing in this file assigns. [None] is undefined. *)
Record Socket := {
  isZone : bool;
  izZone : option bool;
  ping : option nat
}.

(** Calls into the collaborators, in order. *)
Inductive Effect :=
  | SocketSend (socket : nat) (bytes : list byte)
  | SocketClose (socket : nat)
  | SetInterval (timer : nat)
  | ClearInterval (timer : nat)
  | CryptInit
  | CryptProcess (view : list byte)
  | CryptReset
  | ShowErrorBox
  | ConnectCallback (success : bool).

(** [a.indexOf(x)], [None] for -1 *)
Fixpoint indexOf (a : list nat) (x : nat) : option nat :=
  match a with
  | [] => None
  | y :: a => if decide (y = x) then Some 0 else S <$> indexOf a x
  end.

(** [a.splice(idx, 1)] *)
Definition splice1 (idx : nat) (a : list nat) : list nat := delete idx a.

Definition remove_socket (socket : nat) (a : list nat) : list nat :=
  match indexOf a socket with
  | Some idx => splice1 idx a
  | None => a
  end.

(** The [while] loop of [setPing]. With more than one socket tracked and
    the active one first, the JavaScript loop spins for ever: [None]. *)
Fixpoint close_others (active : nat) (a : list nat) : option (list nat * list Effect) :=
  match a with
  | [] => Some (a, [])
  | [_] => Some (a, [])
  | first :: rest =>
      if decide (active = first) then None
      else
        match close_others active rest with
        | Some (a, effs) => Some (a, SocketClose first :: effs)
        | None => None
        end
  end.

Section Sockets.
Context `{PC : PacketCrypt}.

Record Connection := {
  _sockets : list nat;
  _socket : option nat;
  objects : gmap nat Socket;
  crypt : CryptState
}.

Definition socket_ping (c : Connection) (socket : nat) : option nat :=
  objects c !! socket ≫= ping.

Definition socket_isZone (c : Connection) (socket : nat) : bool :=
  match objects c !! socket with
  | Some o => isZone o
  | None => false
  end.

Definition socket_izZone (c : Connection) (socket : nat) : bool :=
  match objects c !! socket ≫= izZone with
  | Some b => b
  | None => false
  end.

(** [if (socket.ping) clearInterval(socket.ping)] *)
Definition clear_ping (c : Connection) (socket : nat) : list Effect :=
  match socket_ping c socket with
  | Some timer => [ClearInterval timer]
  | None => []
  end.

(** [connect] up to the assignment of the notification callbacks: a new
    socket object, tagged with [isZone]. *)
Definition connect (isZone : bool) (c : Connection) : nat * Connection :=
  let socket := fresh (dom (objects c)) in
  (socket,
   {| _sockets := _sockets c; _socket := _socket c;
      objects := <[socket := {| isZone := isZone; izZone := None; ping := None |}]>
                   (objects c);
      crypt := crypt c |}).

(** [socket.onComplete], for the socket and the [isZone] of its [connect]. *)
Definition onComplete (socket : nat) (isZone : bool) (success : bool)
    (c : Connection) : Connection * list Effect :=
  if success then
    let cleared :=
      match _socket c with
      | Some current => clear_ping c current
      | None => []
      end in
    let c := {| _sockets := _sockets c ++ [socket]; _socket := Some socket;
                objects := objects c; crypt := crypt c |} in
    if isZone then
      ({| _sockets := _sockets c; _socket := _socket c; objects := objects c;
          crypt := crypt_init (crypt c) |},
       cleared ++ [CryptInit; ConnectCallback true])
    else (c, cleared ++ [ConnectCallback true])
  else (c, [ConnectCallback false]).

Definition send (buffer : list byte) (c : Connection) : Connection * list Effect :=
  match _socket c with
  | Some socket => (c, [SocketSend socket buffer])
  | None => (c, [])
  end.

(** [sendPacket], applied to the bytes that [Packet.build()] returns. *)
Definition sendPacket (pkt : list byte) (c : Connection) : Connection * list Effect :=
  let zone :=
    match _socket c with
    | Some socket => socket_isZone c socket
    | None => false
    end in
  if zone then
    let '(k, out) := crypt_process (crypt c) pkt in
    let c := {| _sockets := _sockets c; _socket := _socket c;
                objects := objects c; crypt := k |} in
    let '(c, effs) := send out c in
    (c, CryptProcess pkt :: effs)
  else send pkt c.

(** [socket.onClose], with [this] the socket that closed. *)
Definition onClose (this : nat) (c : Connection) : Connection * list Effect :=
  let idx := indexOf (_sockets c) this in
  let effs :=
    if decide (Some this = _socket c)
    then clear_ping c this ++ [ShowErrorBox]
    else [] in
  match idx with
  | Some idx =>
      ({| _sockets := splice1 idx (_sockets c); _socket := _socket c;
          objects := objects c; crypt := crypt c |}, effs)
  | None => (c, effs)
  end.

Definition close (c : Connection) : Connection * list Effect :=
  match _socket c with
  | Some socket =>
      let reset := socket_izZone c socket in
      let idx := indexOf (_sockets c) socket in
      ({| _sockets :=
            match idx with
            | Some idx => splice1 idx (_sockets c)
            | None => _sockets c
            end;
          _socket := None;
          objects := objects c;
          crypt := if reset then crypt_reset (crypt c) else crypt c |},
       SocketClose socket ::
       (if reset then [CryptReset] else []) ++ clear_ping c socket)
  | None => (c, [])
  end.

(** [setPing], with [timer] the handle that [setInterval] returns. *)
Definition setPing (timer : nat) (c : Connection) : option (Connection * list Effect) :=
  match _socket c with
  | Some socket =>
      let cleared := clear_ping c socket in
      let objs :=
        match objects c !! socket with
        | Some o =>
            <[socket := {| isZone := isZone o; izZone := izZone o;
                           ping := Some timer |}]> (objects c)
        | None =>
            <[socket := {| isZone := false; izZone := None;
                           ping := Some timer |}]> (objects c)
        end in
      match close_others socket (_sockets c) with
      | Some (a, closed) =>
          Some ({| _sockets := a; _socket := _socket c; objects := objs;
                   crypt := crypt c |},
                cleared ++ SetInterval timer :: closed)
      | None => None
      end
  | None => Some (c, [])
  end.

End Sockets.

Arguments Connection : clear implicits.
Arguments Connection {PC}.

(** ** Utilities *)

(** Number to string, for a natural number. *)
Definition decimal (n : N) : string := NilEmpty.string_of_uint (N.to_uint n).

(** [Array.prototype.join] *)
Fixpoint join (sep : string) (l : list string) : string :=
  match l with
  | [] => ""
  | [x] => x
  | x :: l => String.append x (String.append sep (join sep l))
  end.

(** The four bytes of a [Uint32Array] cell that holds [long] (the number
    modulo 2^32), as a [Uint8Array] over the same buffer shows them on a
    little-endian host; typed arrays use the byte order of the host. *)
Definition uint8_of_uint32 (long : Z) : list Z :=
  let u := (long mod 2 ^ 32)%Z in
  [(u mod 256)%Z; (u / 256 mod 256)%Z; (u / 65536 mod 256)%Z;
   (u / 16777216 mod 256)%Z].

Definition utilsLongToIP (long : Z) : string :=
  join "." ((λ b, decimal (Z.to_N b)) <$> uint8_of_uint32 long).

(** ** A concrete instance

    Packet values are the payload bytes of a frame, handlers are named,
    and the cipher is a running counter xor-ed into the bytes. *)

Module Demo.

Definition payload_parser : Parser (list byte) :=
  fun fp offset =>
    (take (offset - cursor fp) (drop (cursor fp) (buffer fp)), offset).

(** A parser that reads nothing. *)
Definition idle_parser : Parser (list byte) :=
  fun fp offset =>
    (take (offset - cursor fp) (drop (cursor fp) (buffer fp)), cursor fp).

Definition struct_of (ref : nat) (name : string) (size : Z) : Struct (list byte) :=
  {| sref := ref; s_name := name; s_size := size; s_parse := payload_parser |}.

(** Fixed size 26. *)
Definition FIXED26 : Struct (list byte) := struct_of 1 "FIXED26" 26.
(** Variable size. *)
Definition VARIABLE : Struct (list byte) := struct_of 2 "VARIABLE" (-1).
(** Fixed size 2: the identifier alone. *)
Definition BARE : Struct (list byte) := struct_of 3 "BARE" 2.
(** Variable size, with a parser that reads nothing. *)
Definition IDLE : Struct (list byte) :=
  {| sref := 4; s_name := "IDLE"; s_size := -1; s_parse := idle_parser |}.

Definition ok_or {A : Type} (d : A) (r : Result A) : A :=
  match r with
  | Ok a => a
  | Throw _ => d
  end.

(** Identifiers 0x0064, 0x0abc and 0x0002, registered as numbers. *)
Definition registered : Registry (list byte) string :=
  registerPacket (KNum 2) BARE
    (registerPacket (KNum 2748) VARIABLE
       (registerPacket (KNum 100) FIXED26 empty_Registry)).

(** The same with a handler on each. *)
Definition hooked : Registry (list byte) string :=
  let r := registered in
  let r := ok_or r (hookPacket FIXED26 "onFixed" r) in
  let r := ok_or r (hookPacket VARIABLE "onVariable" r) in
  ok_or r (hookPacket BARE "onBare" r).

Definition narrow_to (v : N) : GuessHook :=
  fun _ _ => {| ver_min := v; ver_max := v |}.

(** [hooked], with a version guess on the fixed-size packet. *)
Definition guessing : Registry (list byte) string :=
  ok_or hooked (guessPacketVer FIXED26 (narrow_to 20130807) hooked).

Definition ambiguous : PacketVer := {| ver_min := 0; ver_max := 20130807 |}.

Definition idle : Reassembly :=
  {| _save_buffer := None; read_callback := None; PACKETVER := ambiguous |}.

Definition zeros (n : nat) : list byte := replicate n x00.

(** Identifier 0x0064 and 24 bytes of payload. *)
Definition frame26 : list byte := [x64; x00] ++ zeros 24.
(** Identifier 0x0abc, length 8, 4 bytes of payload. *)
Definition frame8 : list byte := [xbc; x0a; x08; x00; x01; x02; x03; x04].
(** Identifier 0x0002, fixed size 2. *)
Definition frame2 : list byte := [x02; x00].

Definition xor_byte (k : N) (b : byte) : byte :=
  match Byte.of_N (N.lxor (Byte.to_N b) (k mod 256)) with
  | Some r => r
  | None => b
  end.

(** [None]: disarmed; [Some n]: armed, [n] bytes processed so far. *)
#[export] Instance counter_crypt : PacketCrypt := {|
  CryptState := option N;
  crypt_init := fun _ => Some 0%N;
  crypt_process := fun k view =>
    match k with
    | Some n => (Some (n + N.of_nat (length view))%N, map (xor_byte (n + 165)) view)
    | None => (None, view)
    end;
  crypt_reset := fun _ => None
|}.

Definition no_connection : Connection :=
  {| _sockets := []; _socket := None; objects := ∅; crypt := None |}.

(** [connect(host, port, callback, isZone)] followed by the transport's
    [onComplete(true)]. *)
Definition connected (isZone : bool) (c : Connection) : Connection :=
  let '(socket, c) := connect isZone c in
  (onComplete socket isZone true c).1.

Definition zone_connection : Connection := connected true no_connection.
Definition login_connection : Connection := connected false no_connection.

(** Identifier 0x0007: variable size, parsed by [idle_parser]. *)
Definition with_idle : Registry (list byte) string :=
  registerPacket (KNum 7) IDLE hooked.

(** Identifier 0x0007 alone, with a handler. *)
Definition idle_only : Registry (list byte) string :=
  let r := registerPacket (KNum 7) IDLE empty_Registry in
  ok_or r (hookPacket IDLE "onIdle" r).

(** A parser that reads the two bytes after the header as one field,
    whatever the end offset. *)
Definition field_parser : Parser (list byte) :=
  fun fp offset =>
    (match buffer fp !! cursor fp, buffer fp !! S (cursor fp) with
     | Some lo, Some hi => [lo; hi]
     | _, _ => []
     end, cursor fp + 2).

(** Fixed size 4: the identifier and one field. *)
Definition FIELD4 : Struct (list byte) :=
  {| sref := 5; s_name := "FIELD4"; s_size := 4; s_parse := field_parser |}.

(** [hooked], with identifier 0x0005 for [FIELD4] and a handler on it. *)
Definition with_field : Registry (list byte) string :=
  let r := registerPacket (KNum 5) FIELD4 hooked in
  ok_or r (hookPacket FIELD4 "onField" r).

(** Identifier 0x0005 and the field aa bb. *)
Definition frame4 : list byte := [x05; x00; xaa; xbb].

End Demo.

(** * Properties *)

(** ** The packet registry *)

Section RegistryProperties.
Context {Data Handler : Type}.
Implicit Types (r : Registry Data Handler) (s : Struct Data) (id : JsKey).

Lemma registerPacket_lookup r id s :
  Packets_list (registerPacket id s r) !! prop_name id
  = Some (new_Packets (s_name s) s (s_size s)).
Proof. unfold registerPacket; simpl. apply lookup_insert_eq. Qed.

Lemma registerPacket_packet_id r id s :
  packet_id (registerPacket id s r) s = Some id.
Proof. unfold packet_id, registerPacket; simpl. apply lookup_insert_eq. Qed.

(** A struct whose [id] is truthy and names an entry gets the update. *)
Lemma update_packet_truthy fn (f : Packets Data Handler -> Packets Data Handler)
    r s id p :
  packet_id r s = Some id → truthy id = true →
  Packets_list r !! prop_name id = Some p →
  update_packet fn f s r
  = Ok {| Packets_list := <[prop_name id := f p]> (Packets_list r);
          struct_id := struct_id r |}.
Proof.
  intros Hid Ht Hp. unfold update_packet.
  rewrite Hid. simpl. rewrite Ht. simpl. by rewrite Hp.
Qed.

Lemma update_packet_falsy fn (f : Packets Data Handler -> Packets Data Handler) r s :
  js_not (packet_id r s) = true →
  update_packet fn f s r = Throw (NotYetRegister fn (s_name s)).
Proof. intros H. unfold update_packet. by rewrite H. Qed.

(** A struct that was never passed to [registerPacket] has no [id]. *)
Lemma hookPacket_unregistered r s (cb : Handler) :
  packet_id r s = None →
  hookPacket s cb r = Throw (NotYetRegister "HookPacket" (s_name s)).
Proof. intros H. apply update_packet_falsy. by rewrite H. Qed.

Lemma guessPacketVer_unregistered r s (cb : GuessHook) :
  packet_id r s = None →
  guessPacketVer s cb r = Throw (NotYetRegister "GuessPacketVer" (s_name s)).
Proof. intros H. apply update_packet_falsy. by rewrite H. Qed.

(** Binding succeeds right after a registration under a truthy [id]. *)
Lemma hookPacket_registered r s id (cb : Handler) :
  truthy id = true →
  ∃ r', hookPacket s cb (registerPacket id s r) = Ok r' ∧
        Packets_list r' !! prop_name id
        = Some (set_callback cb (new_Packets (s_name s) s (s_size s))).
Proof.
  intros Ht. eexists. split.
  - unfold hookPacket. eapply update_packet_truthy; eauto using
      registerPacket_packet_id, registerPacket_lookup.
  - simpl. apply lookup_insert_eq.
Qed.

(** The keys of the start-up table are strings; ["0"] is truthy. *)
Lemma hookPacket_registered_string_zero r s (cb : Handler) :
  ∃ r', hookPacket s cb (registerPacket (KStr "0") s r) = Ok r'.
Proof.
  destruct (hookPacket_registered r s (KStr "0") cb eq_refl) as (r' & H & _).
  eauto.
Qed.

(** The start-up loop registers under the keys of a table, which are
    strings: a struct registered last under a key that is not empty can be
    bound at once. *)
Lemma hookPacket_after_register_all r table k s (cb : Handler) :
  k ≠ "" →
  ∃ r', hookPacket s cb (register_all (table ++ [(k, s)]) r) = Ok r'.
Proof.
  intros Hk. unfold register_all. rewrite foldl_app. simpl.
  destruct (hookPacket_registered
              (foldl (λ r kv, registerPacket (KStr kv.1) kv.2 r) r table)
              s (KStr k) cb) as (r' & H & _); [|by eauto].
  simpl. destruct (String.eqb_spec k ""); [done|done].
Qed.

(** C2, as the code has it: a registration under an identifier that is
    already bound (or not) always goes through. It replaces whatever was
    bound to that identifier by a new definition made from the struct, with
    no handler and no guess hook, stamps the identifier on the struct, and
    leaves every other binding alone. *)
Theorem registerPacket_replaces_binding r id s :
  Packets_list (registerPacket id s r) !! prop_name id
  = Some {| name := s_name s; struct := s; size := s_size s;
            callback := None; guess := None |}
  ∧ packet_id (registerPacket id s r) s = Some id
  ∧ ∀ k, k ≠ prop_name id →
         Packets_list (registerPacket id s r) !! k = Packets_list r !! k.
Proof.
  split; [apply registerPacket_lookup|].
  split; [apply registerPacket_packet_id|].
  intros k Hk. unfold registerPacket; simpl. by rewrite lookup_insert_ne.
Qed.

(** [registerPacket] on its own, called with the number 0 and not with a
    key of the table as the start-up loop does: the entry is in
    [Packets.list], and [hookPacket] and [guessPacketVer] throw the
    not-yet-registered error, because [!packet.id] holds of the number 0. *)
Lemma hookPacket_numeric_zero_throws r s (cb : Handler) (hook : GuessHook) :
  Packets_list (registerPacket (KNum 0) s r) !! "0"
  = Some (new_Packets (s_name s) s (s_size s))
  ∧ hookPacket s cb (registerPacket (KNum 0) s r)
    = Throw (NotYetRegister "HookPacket" (s_name s))
  ∧ guessPacketVer s hook (registerPacket (KNum 0) s r)
    = Throw (NotYetRegister "GuessPacketVer" (s_name s)).
Proof.
  split; [apply (registerPacket_lookup r (KNum 0) s)|].
  split; apply update_packet_falsy; by rewrite registerPacket_packet_id.
Qed.

End RegistryProperties.

(** C2 as stated fails: the second registration under 0x0064 is not
    refused, and the binding of 0x0064 is no longer the first one. *)
Lemma registerPacket_duplicate_rebinds :
  ¬ (∀ (r : Registry (list byte) string) (id : JsKey) (s : Struct (list byte)),
       is_Some (Packets_list r !! prop_name id) →
       Packets_list (registerPacket id s r) !! prop_name id
       = Packets_list r !! prop_name id).
Proof.
  intros H.
  specialize (H (registerPacket (KNum 100) Demo.FIXED26 empty_Registry)
                (KNum 100) Demo.VARIABLE).
  rewrite !registerPacket_lookup in H.
  specialize (H (mk_is_Some _ _ eq_refl)). discriminate H.
Qed.

(** The amended C2 at 0x0064, registered twice. *)
Lemma registerPacket_replaces_binding_witness :
  Packets_list
    (registerPacket (KNum 100) Demo.VARIABLE
       (registerPacket (KNum 100) Demo.FIXED26
          (empty_Registry (Handler := string)))) !! "100"
  = Some (new_Packets "VARIABLE" Demo.VARIABLE (-1)).
Proof.
  exact (proj1 (registerPacket_replaces_binding
                  (registerPacket (KNum 100) Demo.FIXED26 empty_Registry)
                  (KNum 100) Demo.VARIABLE)).
Defined.

(** ** Sockets *)

Section SocketProperties.
Context `{PC : PacketCrypt}.
Implicit Types (c : Connection) (socket this : nat).

Lemma indexOf_Some (a : list nat) x idx :
  indexOf a x = Some idx → a !! idx = Some x ∧ x ∉ take idx a.
Proof.
  revert idx. induction a as [|y a IH]; intros idx; simpl; [done|].
  destruct (decide (y = x)) as [->|Hne].
  - intros [= <-]. split; [done|]. simpl. apply not_elem_of_nil.
  - destruct (indexOf a x) as [i|] eqn:Hi; simpl; [|done].
    intros [= <-]. destruct (IH i eq_refl) as [Hl Hn]. split; [done|].
    simpl. rewrite not_elem_of_cons. split; [congruence|done].
Qed.

Lemma indexOf_None (a : list nat) x : indexOf a x = None → x ∉ a.
Proof.
  induction a as [|y a IH]; simpl; [intros _; apply not_elem_of_nil|].
  destruct (decide (y = x)) as [->|Hne]; [done|].
  destruct (indexOf a x) eqn:Hi; simpl; [done|].
  intros _. rewrite not_elem_of_cons. split; [congruence|auto].
Qed.

(** Once the first occurrence is spliced out of a list without repeats,
    the socket is gone from it. *)
Lemma remove_socket_not_elem (a : list nat) x :
  NoDup a → x ∉ remove_socket x a.
Proof.
  intros Hnd. unfold remove_socket, splice1.
  destruct (indexOf a x) as [idx|] eqn:Hi; [|by apply indexOf_None].
  destruct (indexOf_Some _ _ _ Hi) as [Hl Hn].
  rewrite delete_take_drop. rewrite not_elem_of_app. split; [done|].
  intros Hin. apply list_elem_of_lookup in Hin as [j Hj].
  rewrite lookup_drop in Hj.
  assert (idx = S idx + j) by (eapply NoDup_lookup; eauto). lia.
Qed.

Lemma connect_object (isZone : bool) c :
  objects (connect isZone c).2 !! (connect isZone c).1
  = Some {| isZone := isZone; izZone := None; ping := None |}.
Proof. unfold connect; simpl. apply lookup_insert_eq. Qed.

(** [close] on an active socket without an [izZone] property, whatever
    its [isZone]: the cipher is left alone. *)
Lemma close_without_izZone c socket o :
  _socket c = Some socket →
  objects c !! socket = Some o →
  izZone o = None →
  (close c).2 = SocketClose socket :: clear_ping c socket
  ∧ crypt (close c).1 = crypt c
  ∧ _socket (close c).1 = None
  ∧ _sockets (close c).1 = remove_socket socket (_sockets c).
Proof.
  intros Hs Ho Hz. unfold close, remove_socket. rewrite Hs.
  unfold socket_izZone. rewrite Ho. simpl. by rewrite Hz.
Qed.

(** C3 on a zone connection made by [connect]: [close] closes the socket
    and clears the active reference, but [PacketCrypt.reset] is not among
    its calls and the cipher stays as [init] armed it, because the test
    reads [izZone], a property that no socket carries. *)
Theorem close_zone_socket_skips_reset c :
  let socket := (connect true c).1 in
  let c2 := (onComplete socket true true (connect true c).2).1 in
  _socket c2 = Some socket
  ∧ socket_isZone c2 socket = true
  ∧ (close c2).2 = [SocketClose socket]
  ∧ crypt (close c2).1 = crypt_init (crypt c)
  ∧ _socket (close c2).1 = None.
Proof.
  intros socket c2.
  assert (Ho : objects c2 !! socket
               = Some {| isZone := true; izZone := None; ping := None |})
    by apply (connect_object true c).
  assert (Hs : _socket c2 = Some socket) by done.
  split; [done|]. split.
  { unfold socket_isZone. by rewrite Ho. }
  destruct (close_without_izZone c2 socket _ Hs Ho eq_refl)
    as (He & Hc & Ha & _).
  split; [|done].
  rewrite He. unfold clear_ping, socket_ping. by rewrite Ho.
Qed.

(** C5, as the code has it: [sendPacket] passes the packet through the
    transform exactly when the active socket is zone-flagged, and hands
    the socket the transformed bytes; on any other active socket it hands
    over the bytes as built. The raw [send] forwards its buffer untouched
    whatever the flag, and both are silent without an active socket. *)
Theorem sendPacket_transforms_on_zone_only c (pkt : list byte) :
  (∀ socket, _socket c = Some socket → socket_isZone c socket = true →
     sendPacket pkt c
     = ({| _sockets := _sockets c; _socket := _socket c; objects := objects c;
           crypt := (crypt_process (crypt c) pkt).1 |},
        [CryptProcess pkt; SocketSend socket (crypt_process (crypt c) pkt).2]))
  ∧ (∀ socket, _socket c = Some socket → socket_isZone c socket = false →
     sendPacket pkt c = (c, [SocketSend socket pkt]))
  ∧ (∀ socket, _socket c = Some socket →
     send pkt c = (c, [SocketSend socket pkt]))
  ∧ (_socket c = None → sendPacket pkt c = (c, []) ∧ send pkt c = (c, [])).
Proof.
  split; [|split; [|split]].
  - intros socket Hs Hz. unfold sendPacket. rewrite Hs, Hz.
    by destruct (crypt_process (crypt c) pkt) as [k out].
  - intros socket Hs Hz. unfold sendPacket, send. by rewrite Hs, Hz.
  - intros socket Hs. unfold send. by rewrite Hs.
  - intros Hs. unfold sendPacket, send. by rewrite Hs.
Qed.

(** C10: when the active socket reports that it closed, [onClose] cancels
    its keepalive timer (if it has one), tells the user, and splices the
    socket out of the tracked list; the active reference still names the
    closed socket, so a later [send] hands it the bytes, where without an
    active socket [send] does nothing. *)
Theorem onClose_keeps_active_reference c this :
  _socket c = Some this →
  let c' := (onClose this c).1 in
  (onClose this c).2 = clear_ping c this ++ [ShowErrorBox]
  ∧ (∀ timer, socket_ping c this = Some timer →
       (onClose this c).2 = [ClearInterval timer; ShowErrorBox])
  ∧ _sockets c' = remove_socket this (_sockets c)
  ∧ (NoDup (_sockets c) → this ∉ _sockets c')
  ∧ _socket c' = Some this
  ∧ (∀ buf, send buf c' = (c', [SocketSend this buf]))
  ∧ (∀ buf c0, _socket c0 = None → send buf c0 = (c0, [])).
Proof.
  intros Hs c'.
  assert (He : (onClose this c).2 = clear_ping c this ++ [ShowErrorBox]).
  { unfold onClose. rewrite Hs. rewrite decide_True by done.
    by destruct (indexOf (_sockets c) this). }
  assert (Hl : _sockets c' = remove_socket this (_sockets c)).
  { unfold c', onClose, remove_socket.
    by destruct (indexOf (_sockets c) this). }
  assert (Ha : _socket c' = Some this).
  { unfold c', onClose. by destruct (indexOf (_sockets c) this). }
  split; [done|]. split.
  { intros timer Ht. rewrite He. unfold clear_ping. by rewrite Ht. }
  split; [done|]. split.
  { intros Hnd. rewrite Hl. by apply remove_socket_not_elem. }
  split; [done|]. split.
  - intros buf. unfold send. by rewrite Ha.
  - intros buf c0 H0. unfold send. by rewrite H0.
Qed.

End SocketProperties.

(** C3 on the first connection of a session, a zone connection: after
    [close] the cipher is still armed, where [reset] would disarm it. *)
Lemma close_zone_socket_skips_reset_witness :
  (close Demo.zone_connection).2 = [SocketClose 0]
  ∧ crypt (close Demo.zone_connection).1 = crypt Demo.zone_connection
  ∧ crypt (close Demo.zone_connection).1
    ≠ crypt_reset (crypt Demo.zone_connection).
Proof.
  pose proof (close_zone_socket_skips_reset Demo.no_connection)
    as (_ & _ & He & Hc & _).
  split; [exact He|]. split; [exact Hc|].
  intros H. pose proof (eq_trans (eq_sym Hc) H) as H'. discriminate H'.
Defined.

(** C5 as stated fails for the raw [send]: on a zone connection the bytes
    reach the socket as they were given, the transform is not called and
    the cipher does not advance. *)
Lemma send_on_zone_is_not_transformed :
  _socket Demo.zone_connection = Some 0
  ∧ socket_isZone Demo.zone_connection 0 = true
  ∧ send Demo.frame8 Demo.zone_connection
    = (Demo.zone_connection, [SocketSend 0 Demo.frame8])
  ∧ (crypt_process (crypt Demo.zone_connection) Demo.frame8).2 ≠ Demo.frame8.
Proof. vm_compute. repeat split; discriminate. Qed.

(** The amended C5 on a zone connection and on a login connection. *)
Lemma sendPacket_transforms_on_zone_only_witness :
  (sendPacket Demo.frame8 Demo.zone_connection).2
  = [CryptProcess Demo.frame8;
     SocketSend 0 (crypt_process (crypt Demo.zone_connection) Demo.frame8).2]
  ∧ sendPacket Demo.frame8 Demo.login_connection
    = (Demo.login_connection, [SocketSend 0 Demo.frame8]).
Proof.
  split.
  - rewrite (proj1 (sendPacket_transforms_on_zone_only
                      Demo.zone_connection Demo.frame8) 0); reflexivity.
  - apply (proj1 (proj2 (sendPacket_transforms_on_zone_only
                           Demo.login_connection Demo.frame8)) 0);
      reflexivity.
Defined.

(** C10 on a zone connection whose keepalive timer 7 is running. *)
Lemma onClose_keeps_active_reference_witness :
  ∃ c, setPing 7 Demo.zone_connection = Some (c, [SetInterval 7])
     ∧ (onClose 0 c).2 = [ClearInterval 7; ShowErrorBox]
     ∧ _sockets (onClose 0 c).1 = []
     ∧ _socket (onClose 0 c).1 = Some 0
     ∧ send Demo.frame8 (onClose 0 c).1
       = ((onClose 0 c).1, [SocketSend 0 Demo.frame8]).
Proof.
  eexists. split; [reflexivity|].
  match goal with |- (onClose 0 ?c).2 = _ ∧ _ =>
    pose proof (onClose_keeps_active_reference c 0 eq_refl) as H end.
  destruct H as (_ & Ht & Hl & _ & Ha & Hsend & _).
  split; [apply Ht; reflexivity|].
  split; [rewrite Hl; reflexivity|].
  split; [exact Ha|]. apply Hsend.
Defined.

(** ** The reassembly loop *)

Section ReassemblyProperties.
Context {Data Handler : Type}.
Implicit Types (packets : gmap string (Packets Data Handler))
  (packet : Packets Data Handler) (fp : BinaryReader) (ver : PacketVer)
  (evs : list (Event Data Handler)) (b : list byte).

(** The view from [offset] to the end of the buffer is its tail. *)
Lemma Uint8Array_tail b offset :
  Uint8Array b offset (length b - offset) = drop offset b.
Proof. unfold Uint8Array. apply take_ge. by rewrite length_drop. Qed.

Lemma u16_at_is_Some b pos : pos + 2 ≤ length b → is_Some (u16_at b pos).
Proof.
  intros H. unfold u16_at.
  destruct (lookup_lt_is_Some_2 b pos) as [lo ->]; [lia|].
  destruct (lookup_lt_is_Some_2 b (S pos)) as [hi ->]; [lia|]. eauto.
Qed.

Lemma u16_at_app_r (pre : list byte) b pos :
  u16_at (pre ++ b) (length pre + pos) = u16_at b pos.
Proof.
  unfold u16_at.
  replace (S (length pre + pos)) with (length pre + S pos) by lia.
  rewrite !lookup_app_r by lia.
  by replace (length pre + pos - length pre) with pos by lia;
     replace (length pre + S pos - length pre) with (S pos) by lia.
Qed.

Lemma u16_at_app_l b (post : list byte) pos :
  pos + 2 ≤ length b → u16_at (b ++ post) pos = u16_at b pos.
Proof.
  intros H. unfold u16_at. by rewrite !lookup_app_l by lia.
Qed.

Lemma readUShort_Some fp v fp' :
  readUShort fp = Some (v, fp') →
  u16_at (buffer fp) (cursor fp) = Some v ∧ fp' = seek (cursor fp + 2) fp.
Proof.
  unfold readUShort. destruct (u16_at (buffer fp) (cursor fp)); [|done].
  by intros [= <- <-].
Qed.

Lemma readUShort_in_range fp :
  cursor fp + 2 ≤ fp_length fp → is_Some (readUShort fp).
Proof.
  intros H. unfold readUShort.
  destruct (u16_at_is_Some (buffer fp) (cursor fp) H) as [v ->]. eauto.
Qed.

(** After the length of a frame is known the cursor stands right behind
    the frame's header, over the same bytes. *)
Lemma packet_length_Length packet offset fp length fp' :
  packet_length packet offset fp = Length length fp' →
  buffer fp' = buffer fp ∧ cursor fp' + 2 = cursor fp + header_size packet.
Proof.
  unfold packet_length, header_size.
  destruct (size packet <? 0)%Z.
  - destruct (fp_length fp <=? offset + 4); [done|].
    destruct (readUShort fp) as [[l fp2]|] eqn:Hr; [|done].
    intros [= <- <-]. apply readUShort_Some in Hr as [_ ->].
    split; [done|simpl; lia].
  - intros [= <- <-]. split; [done|lia].
Qed.

(** Both reads of the loop are guarded: no turn ends in a RangeError. *)
Lemma body_no_raise packets fp ver e : body packets fp ver ≠ Raise e.
Proof.
  unfold body.
  destruct (Nat.leb_spec (fp_length fp) (tell fp + 2)) as [|H2]; [done|].
  destruct (readUShort fp) as [[id fp1]|] eqn:Hr1.
  2:{ destruct (readUShort_in_range fp) as [? ?]; [unfold tell in H2; lia|congruence]. }
  apply readUShort_Some in Hr1 as [_ ->].
  destruct (lookup_packet packets id) as [packet|]; [|done].
  unfold packet_length.
  destruct (size packet <? 0)%Z.
  - destruct (Nat.leb_spec (fp_length (seek (cursor fp + 2) fp)) (tell fp + 4))
      as [|H4]; [done|].
    destruct (readUShort (seek (cursor fp + 2) fp)) as [[l fp2]|] eqn:Hr2.
    + unfold parse_packet.
      repeat (case_match; try done).
    + destruct (readUShort_in_range (seek (cursor fp + 2) fp)) as [? ?];
        [unfold fp_length, tell in *; simpl in *; lia|congruence].
  - unfold parse_packet. repeat (case_match; try done).
Qed.

Lemma loop_no_throw packets fuel : ∀ fp ver e,
  loop fuel packets fp ver ≠ Some (Throw e).
Proof.
  induction fuel as [|fuel IH]; intros fp ver e; simpl; [done|].
  destruct (tell fp <? fp_length fp); [|done].
  pose proof (body_no_raise packets fp ver) as Hb.
  destruct (body packets fp ver) as [s v evs|evs|fp1 v evs|e']; try done.
  - specialize (IH fp1 v).
    by destruct (loop fuel packets fp1 v) as [[[[s1 v1] rest]|e1]|].
  - by destruct (Hb e').
Qed.

(** C4 on the code: with exactly 2 bytes left the identifier is not read,
    and with exactly 4 bytes left from the start of a variable-size frame
    its length field is not read; in both cases the bytes are saved as
    carry-over and the call returns. *)
Theorem receive_saves_bare_header packets fp ver :
  (tell fp + 2 = fp_length fp →
     body packets fp ver = Saved (drop (tell fp) (buffer fp)) ver [])
  ∧ (∀ id fp1 packet,
       tell fp + 4 = fp_length fp →
       readUShort fp = Some (id, fp1) →
       lookup_packet packets id = Some packet →
       (size packet < 0)%Z →
       body packets fp ver = Saved (drop (tell fp) (buffer fp)) ver []).
Proof.
  split.
  - intros H. unfold body.
    destruct (Nat.leb_spec (fp_length fp) (tell fp + 2)); [|lia].
    by rewrite Uint8Array_tail.
  - intros id fp1 packet H Hr Hl Hs. unfold body.
    destruct (Nat.leb_spec (fp_length fp) (tell fp + 2)); [lia|].
    rewrite Hr, Hl. apply readUShort_Some in Hr as [_ ->].
    unfold packet_length. rewrite (proj2 (Z.ltb_lt _ _) Hs).
    destruct (Nat.leb_spec (fp_length (seek (cursor fp + 2) fp)) (tell fp + 4))
      as [|H4]; [|unfold fp_length in *; simpl in *; lia].
    unfold fp_length at 1; simpl. by rewrite Uint8Array_tail.
Qed.

(** What [parse_packet] does with a guess hook bound and the range open. *)
Lemma parse_packet_guess id packet length start fp ver hook :
  guess packet = Some hook →
  ver_min ver ≠ ver_max ver →
  parse_packet id packet length start fp ver
  = if fp_length fp <? start + length then
      Saved (Uint8Array (buffer fp) (tell fp - header_size packet)
               (fp_length fp - (tell fp - header_size packet)))
            (hook length ver) [Guess id length]
    else
      let data := (s_parse (struct packet) fp (start + length)).1 in
      let pos := (s_parse (struct packet) fp (start + length)).2 in
      Next (if length =? 0 then seek pos fp else seek (start + length) (seek pos fp))
        (hook length ver)
        (Guess id length :: Recv id data (bool_decide (is_Some (callback packet))) ::
         match callback packet with
         | Some h => [Callback h data]
         | None => []
         end).
Proof.
  intros Hg Hv. unfold parse_packet. rewrite Hg.
  rewrite (proj2 (N.eqb_neq _ _) Hv). simpl.
  destruct (fp_length fp <? start + length); [done|].
  by destruct (s_parse (struct packet) fp (start + length)) as [data pos].
Qed.

(** C6, as the code has it: the version guess comes before the test for
    an incomplete frame. Once the length of a frame is known, a bound hook
    is called with it while the version range is open, also when the frame
    ends beyond the bytes at hand; the frame is then saved from its first
    byte and neither parsed nor dispatched. For a complete frame the hook
    is called before the packet is parsed. *)
Theorem guess_precedes_incomplete_check packets fp ver id fp1 packet length fp2 hook :
  tell fp + 2 < fp_length fp →
  readUShort fp = Some (id, fp1) →
  lookup_packet packets id = Some packet →
  packet_length packet (tell fp) fp1 = Length length fp2 →
  guess packet = Some hook →
  ver_min ver ≠ ver_max ver →
  (fp_length fp < tell fp + length →
     body packets fp ver
     = Saved (drop (tell fp) (buffer fp)) (hook length ver) [Guess id length])
  ∧ (tell fp + length ≤ fp_length fp →
     ∃ fp' data,
       body packets fp ver
       = Next fp' (hook length ver)
           (Guess id length :: Recv id data (bool_decide (is_Some (callback packet))) ::
            match callback packet with
            | Some h => [Callback h data]
            | None => []
            end)).
Proof.
  intros H2 Hr Hl Hlen Hg Hv.
  assert (Hb : body packets fp ver
               = parse_packet id packet length (tell fp) fp2 ver).
  { unfold body. destruct (Nat.leb_spec (fp_length fp) (tell fp + 2)); [lia|].
    by rewrite Hr, Hl, Hlen. }
  rewrite Hb, (parse_packet_guess _ _ _ _ _ _ _ Hg Hv).
  apply packet_length_Length in Hlen as [Hbuf Hcur].
  apply readUShort_Some in Hr as [_ ->]. simpl in *.
  assert (Hfl : fp_length fp2 = fp_length fp) by (unfold fp_length; by rewrite Hbuf).
  split; intros Hc.
  - destruct (Nat.ltb_spec (fp_length fp2) (tell fp + length)); [|lia].
    replace (tell fp2 - header_size packet) with (tell fp)
      by (unfold tell; lia).
    unfold fp_length at 1. by rewrite Uint8Array_tail, Hbuf.
  - destruct (Nat.ltb_spec (fp_length fp2) (tell fp + length)); [lia|].
    eauto.
Qed.

(** C8, as the code has it: a variable-size frame whose length field is
    read and which is fully present leaves the cursor exactly [L] bytes
    past the start of its identifier when [L] is not 0, whatever the
    parser read. When [L] is 0 the loop does not seek: the cursor stays
    where the parser left it. *)
Theorem variable_frame_advances_cursor packets fp ver id fp1 packet L fp2 :
  tell fp + 4 < fp_length fp →
  readUShort fp = Some (id, fp1) →
  lookup_packet packets id = Some packet →
  (size packet < 0)%Z →
  readUShort fp1 = Some (L, fp2) →
  tell fp + N.to_nat L ≤ fp_length fp →
  ∃ fp' ver' evs,
    body packets fp ver = Next fp' ver' evs
    ∧ buffer fp' = buffer fp
    ∧ (L ≠ 0%N → tell fp' = tell fp + N.to_nat L)
    ∧ (L = 0%N → tell fp' = (s_parse (struct packet) fp2 (tell fp)).2).
Proof.
  intros H4 Hr1 Hl Hs Hr2 Hc.
  assert (Hb : body packets fp ver
               = parse_packet id packet (N.to_nat L) (tell fp) fp2 ver).
  { unfold body. destruct (Nat.leb_spec (fp_length fp) (tell fp + 2)); [lia|].
    rewrite Hr1, Hl. unfold packet_length. rewrite (proj2 (Z.ltb_lt _ _) Hs).
    apply readUShort_Some in Hr1 as [_ ->].
    destruct (Nat.leb_spec (fp_length (seek (cursor fp + 2) fp)) (tell fp + 4));
      [unfold fp_length in *; simpl in *; lia|].
    by rewrite Hr2. }
  apply readUShort_Some in Hr1 as [_ ->].
  apply readUShort_Some in Hr2 as [_ ->]. simpl in *.
  rewrite Hb. unfold parse_packet.
  set (fp2 := seek (cursor fp + 2 + 2) (seek (cursor fp + 2) fp)).
  assert (Hfl : fp_length fp2 = fp_length fp) by done.
  destruct (match guess packet with
            | Some hook =>
                if negb (ver_min ver =? ver_max ver)%N
                then (hook (N.to_nat L) ver, [Guess id (N.to_nat L)])
                else (ver, [])
            | None => (ver, [])
            end) as [ver' guessed].
  destruct (Nat.ltb_spec (fp_length fp2) (tell fp + N.to_nat L)); [lia|].
  destruct (s_parse (struct packet) fp2 (tell fp + N.to_nat L))
    as [data pos] eqn:Hp.
  do 3 eexists. split; [reflexivity|].
  destruct (Nat.eqb_spec (N.to_nat L) 0) as [H0|H0].
  - split; [done|]. split; [lia|]. intros ->. simpl in Hp.
    rewrite Nat.add_0_r in Hp. by rewrite Hp.
  - split; [done|]. split; [done|]. intros ->. done.
Qed.

End ReassemblyProperties.

(** ** Unknown identifiers *)

Section UnknownIdentifier.
Context {Data Handler : Type}.
Implicit Types (packets : gmap string (Packets Data Handler))
  (packet : Packets Data Handler) (fp : BinaryReader) (ver : PacketVer)
  (evs : list (Event Data Handler)).

(** [parse_packet] logs no unknown identifier. *)
Lemma parse_packet_events id packet length start fp ver :
  match parse_packet id packet length start fp ver with
  | Saved _ _ evs | Next _ _ evs => ∀ id' n, NotRegister id' n ∉ evs
  | Break _ | Raise _ => False
  end.
Proof.
  unfold parse_packet.
  destruct (guess packet) as [hook|];
    [destruct (negb (ver_min ver =? ver_max ver)%N)|];
    destruct (fp_length fp <? start + length);
    try destruct (s_parse (struct packet) fp (start + length)) as [data pos];
    intros id' n Hin; destruct (callback packet);
    repeat (apply elem_of_cons in Hin as [Hin|Hin]; [discriminate Hin|]);
    by apply elem_of_nil in Hin.
Qed.

(** A turn of the loop logs an unknown identifier only as it breaks out
    of the loop, and breaks out only for an identifier that is not bound
    in [Packets.list]. *)
Lemma body_events packets fp ver :
  match body packets fp ver with
  | Saved _ _ evs | Next _ _ evs => ∀ id n, NotRegister id n ∉ evs
  | Break evs =>
      ∃ id, lookup_packet packets id = None
            ∧ evs = [NotRegister id (fp_length fp - (tell fp + 2))]
  | Raise _ => True
  end.
Proof.
  unfold body.
  destruct (fp_length fp <=? tell fp + 2); [intros ? ?; apply not_elem_of_nil|].
  destruct (readUShort fp) as [[id fp1]|] eqn:Hr; [|done].
  apply readUShort_Some in Hr as [_ ->].
  destruct (lookup_packet packets id) as [packet|] eqn:Hl; [|by eauto].
  destruct (packet_length packet (tell fp) (seek (cursor fp + 2) fp))
    as [|length fp2|]; [intros ? ?; apply not_elem_of_nil| |done].
  pose proof (parse_packet_events id packet length (tell fp) fp2 ver) as H.
  by destruct (parse_packet id packet length (tell fp) fp2 ver).
Qed.

Lemma loop_not_register packets fuel : ∀ fp ver save ver' evs id n,
  loop fuel packets fp ver = Some (Ok (save, ver', evs)) →
  NotRegister id n ∈ evs →
  save = None ∧ lookup_packet packets id = None
  ∧ ∃ before, evs = before ++ [NotRegister id n].
Proof.
  induction fuel as [|fuel IH]; intros fp ver save ver' evs id n; simpl; [done|].
  destruct (tell fp <? fp_length fp).
  2:{ intros [= <- <- <-] Hin. by apply elem_of_nil in Hin. }
  pose proof (body_events packets fp ver) as Hb.
  destruct (body packets fp ver) as [s v e|e|fp1 v e|e].
  - intros [= <- <- <-] Hin. by apply Hb in Hin.
  - intros [= <- <- <-] Hin. destruct Hb as (id' & Hl & ->).
    apply list_elem_of_singleton in Hin as [= -> ->].
    split; [done|]. split; [done|]. by exists [].
  - destruct (loop fuel packets fp1 v) as [[[[s1 v1] rest]|]|] eqn:Hloop; [|done..].
    intros [= <- <- <-] Hin. apply elem_of_app in Hin as [Hin|Hin].
    + by apply Hb in Hin.
    + destruct (IH _ _ _ _ _ _ _ Hloop Hin) as (-> & Hl & before & ->).
      split; [done|]. split; [done|]. exists (e ++ before). by rewrite app_assoc.
  - done.
Qed.

(** C7: an identifier that is not bound in [Packets.list] ends the loop
    at once, with [_save_buffer] set to null and nothing after the log
    line: whatever the call had dispatched was dispatched before it, and
    none of the bytes that follow are kept or looked at. *)
Theorem unknown_identifier_discards_rest packets :
  (∀ fuel fp ver id fp1,
     tell fp + 2 < fp_length fp →
     readUShort fp = Some (id, fp1) →
     lookup_packet packets id = None →
     loop (S fuel) packets fp ver
     = Some (Ok (None, ver, [NotRegister id (fp_length fp - (tell fp + 2))])))
  ∧ (∀ fuel buf st st' evs id n,
       receive fuel packets buf st = Some (Ok (st', evs)) →
       NotRegister id n ∈ evs →
       _save_buffer st' = None
       ∧ lookup_packet packets id = None
       ∧ ∃ before, evs = before ++ [NotRegister id n]).
Proof.
  split.
  - intros fuel fp ver id fp1 H2 Hr Hl. simpl.
    destruct (Nat.ltb_spec (tell fp) (fp_length fp)); [|lia].
    unfold body. destruct (Nat.leb_spec (fp_length fp) (tell fp + 2)); [lia|].
    rewrite Hr, Hl. by apply readUShort_Some in Hr as [_ ->].
  - intros fuel buf st st' evs id n. unfold receive.
    set (fp0 := new_BinaryReader _).
    destruct (read_callback st) as [cb|].
    + destruct (loop fuel packets (seek (cb fp0) fp0) (PACKETVER st))
        as [[[[s v] e]|]|] eqn:Hloop; [|done..].
      intros [= <- <-] Hin. apply elem_of_cons in Hin as [Hin|Hin]; [done|].
      destruct (loop_not_register _ _ _ _ _ _ _ _ _ Hloop Hin)
        as (-> & Hl & before & ->).
      split; [done|]. split; [done|]. by exists (ReadHook :: before).
    + destruct (loop fuel packets fp0 (PACKETVER st))
        as [[[[s v] e]|]|] eqn:Hloop; [|done..].
      intros [= <- <-] Hin.
      destruct (loop_not_register _ _ _ _ _ _ _ _ _ Hloop Hin)
        as (-> & Hl & before & ->).
      split; [done|]. split; [done|]. by exists before.
Qed.

End UnknownIdentifier.

(** ** Reassembly across chunks *)

Section ChunkSplit.
Context {Data Handler : Type}.
Implicit Types (packets : gmap string (Packets Data Handler))
  (p : Packets Data Handler) (fp : BinaryReader) (ver : PacketVer)
  (evs : list (Event Data Handler)) (f B pre rest more : list byte)
  (frames done todo : list (list byte)).

Lemma valid_frame_inv packets f :
  valid_frame packets f = true →
  ∃ id p,
    u16_at f 0 = Some id ∧ lookup_packet packets id = Some p
    ∧ frame_packet packets f = Some p
    ∧ ((size p <? 0)%Z = true ∧ 4 ≤ length f
       ∧ u16_at f 2 = Some (N.of_nat (length f))
       ∨ (size p <? 0)%Z = false ∧ 2 ≤ length f
         ∧ Z.to_nat (size p) = length f).
Proof.
  unfold valid_frame.
  destruct (frame_packet packets f) as [p|] eqn:Hfp; [|done].
  pose proof Hfp as Hfp'. unfold frame_packet in Hfp'.
  apply bind_Some in Hfp' as (id & Hid & Hl).
  intros Hv. exists id, p. do 3 (split; [done|]).
  destruct (size p <? 0)%Z; apply andb_true_iff in Hv as [Hn Hlen];
    apply Nat.leb_le in Hn; [left|right].
  - apply bool_decide_eq_true in Hlen. done.
  - apply Z.eqb_eq in Hlen. by rewrite <- Hlen, Nat2Z.id.
Qed.

Lemma valid_frame_header packets f p :
  valid_frame packets f = true → frame_packet packets f = Some p →
  2 ≤ header_size p ≤ length f.
Proof.
  intros Hv Hfp.
  destruct (valid_frame_inv _ _ Hv) as (id & p' & _ & _ & Hfp' & Hs).
  assert (p' = p) as -> by congruence. unfold header_size.
  destruct Hs as [(-> & ? & _)|(-> & ? & _)]; lia.
Qed.

(** Two lists with a common extension agree where both are defined. *)
Lemma u16_at_common B rest f more pos :
  B ++ rest = f ++ more → pos + 2 ≤ length B → pos + 2 ≤ length f →
  u16_at B pos = u16_at f pos.
Proof.
  intros He HB Hf.
  rewrite <- (u16_at_app_l B rest pos HB), He. by apply u16_at_app_l.
Qed.

Lemma common_prefix B rest f more :
  B ++ rest = f ++ more → length f ≤ length B → B = f ++ drop (length f) B.
Proof.
  intros He Hl.
  rewrite <- (take_drop (length f) B) at 1. f_equal.
  rewrite <- (take_app_le B rest) by done. rewrite He. apply take_app_length.
Qed.

Lemma calls_app (evs1 evs2 : list (Event Data Handler)) :
  calls (evs1 ++ evs2) = calls evs1 ++ calls evs2.
Proof. apply omap_app. Qed.

Lemma calls_guessed (guessed : list (Event Data Handler)) p length ver ver' id :
  match guess p with
  | Some hook =>
      if negb (ver_min ver =? ver_max ver)%N
      then (hook length ver, [Guess id length])
      else (ver, [])
  | None => (ver, [])
  end = (ver', guessed) →
  calls guessed = [].
Proof.
  destruct (guess p); [destruct (negb _)|]; by intros [= <- <-].
Qed.

(** The frame at the cursor, once its length is known: saved whole if it
    ends beyond the buffer, else parsed, handed to its handler if it has
    one, and stepped over. *)
Lemma parse_packet_frame pre B rest f more id p ver fp :
  (∀ pre' post : list byte,
     (s_parse (struct p)
        {| buffer := pre' ++ f ++ post; cursor := length pre' + header_size p |}
        (length pre' + length f)).1
     = typed_value p f) →
  B ++ rest = f ++ more →
  2 ≤ header_size p ≤ length f →
  buffer fp = pre ++ B →
  cursor fp = length pre + header_size p →
  ∃ ver' evs,
    parse_packet id p (length f) (length pre) fp ver
    = (if length f <=? length B
       then Next {| buffer := pre ++ B; cursor := length pre + length f |} ver' evs
       else Saved B ver' evs)
    ∧ calls evs
      = if length f <=? length B
        then match callback p with
             | Some h => [(h, typed_value p f)]
             | None => []
             end
        else [].
Proof.
  intros Hown He Hh Hbuf Hcur. unfold parse_packet.
  destruct (match guess p with
            | Some hook =>
                if negb (ver_min ver =? ver_max ver)%N
                then (hook (length f) ver, [Guess id (length f)])
                else (ver, [])
            | None => (ver, [])
            end) as [ver' guessed] eqn:Hg.
  apply calls_guessed in Hg.
  unfold fp_length, tell. rewrite Hbuf, Hcur, length_app.
  destruct (Nat.leb_spec (length f) (length B)) as [Hge|Hlt].
  - destruct (Nat.ltb_spec (length pre + length B) (length pre + length f));
      [lia|].
    destruct (s_parse (struct p) fp (length pre + length f)) as [data pos] eqn:Hp.
    destruct (Nat.eqb_spec (length f) 0); [lia|].
    assert (Hd : data = typed_value p f).
    { rewrite <- (Hown pre (drop (length f) B)).
      rewrite <- (common_prefix _ _ _ _ He Hge).
      destruct fp as [b c]; simpl in *. subst b c. by rewrite Hp. }
    eexists ver', _. split.
    + unfold seek; simpl. by rewrite Hbuf.
    + rewrite calls_app, Hg. simpl. rewrite Hd. by destruct (callback p).
  - destruct (Nat.ltb_spec (length pre + length B) (length pre + length f));
      [|lia].
    exists ver', guessed. split; [|done].
    replace (length pre + header_size p - header_size p) with (length pre) by lia.
    rewrite <- length_app, Uint8Array_tail. by rewrite drop_app_length.
Qed.

(** The length of the frame at the cursor, as the loop finds it. *)
Lemma packet_length_frame packets pre B rest f more p :
  valid_frame packets f = true →
  frame_packet packets f = Some p →
  B ++ rest = f ++ more →
  2 < length B →
  packet_length p (length pre) {| buffer := pre ++ B; cursor := length pre + 2 |}
  = if header_size p <? length B
    then Length (length f)
           {| buffer := pre ++ B; cursor := length pre + header_size p |}
    else TooShort.
Proof.
  intros Hv Hfp He H2.
  destruct (valid_frame_inv _ _ Hv) as (id & p' & _ & _ & Hfp' & Hs).
  assert (p' = p) as -> by congruence.
  unfold packet_length, header_size, fp_length. simpl. rewrite length_app.
  destruct Hs as [(-> & Hf4 & Hlen)|(-> & Hf2 & Hlen)].
  - destruct (Nat.leb_spec (length pre + length B) (length pre + 4));
      destruct (Nat.ltb_spec 4 (length B)); try lia; [done|].
    unfold readUShort. simpl.
    rewrite u16_at_app_r, (u16_at_common B rest f more 2 He), Hlen by lia.
    rewrite Nat2N.id. unfold seek. simpl. do 2 f_equal. lia.
  - destruct (Nat.ltb_spec 2 (length B)); [|lia]. by rewrite Hlen.
Qed.

(** One turn of the loop at the first byte of a frame of the stream. *)
Lemma body_frame packets pre B rest f more p ver :
  reads_own_frame packets f →
  valid_frame packets f = true →
  frame_packet packets f = Some p →
  B ++ rest = f ++ more →
  ∃ ver' evs,
    body packets {| buffer := pre ++ B; cursor := length pre |} ver
    = (if (header_size p <? length B) && (length f <=? length B)
       then Next {| buffer := pre ++ B; cursor := length pre + length f |} ver' evs
       else Saved B ver' evs)
    ∧ calls evs
      = if (header_size p <? length B) && (length f <=? length B)
        then match callback p with
             | Some h => [(h, typed_value p f)]
             | None => []
             end
        else [].
Proof.
  intros Hown Hv Hfp He.
  pose proof (valid_frame_header _ _ _ Hv Hfp) as Hh.
  destruct (valid_frame_inv _ _ Hv) as (id & p' & Hid & Hl & Hfp' & _).
  assert (p' = p) as -> by congruence.
  set (fp := {| buffer := pre ++ B; cursor := length pre |}).
  assert (Hsave : Uint8Array (buffer fp) (tell fp) (fp_length fp - tell fp) = B).
  { unfold fp_length. rewrite Uint8Array_tail. apply drop_app_length. }
  assert (Hlen : fp_length fp = length pre + length B)
    by (unfold fp_length; simpl; by rewrite length_app).
  unfold body. rewrite Hsave, Hlen. change (tell fp) with (length pre).
  destruct (Nat.leb_spec (length pre + length B) (length pre + 2)) as [Hle2|Hgt2].
  { exists ver, []. destruct (Nat.ltb_spec (header_size p) (length B)); [lia|].
    done. }
  assert (Hr1 : readUShort fp
                = Some (id, {| buffer := pre ++ B; cursor := length pre + 2 |})).
  { unfold readUShort. simpl.
    rewrite <- (Nat.add_0_r (length pre)) at 1. rewrite u16_at_app_r.
    by rewrite (u16_at_common B rest f more 0 He), Hid by lia. }
  rewrite Hr1, Hl.
  rewrite (packet_length_frame packets pre B rest f more p) by (done || lia).
  destruct (Nat.ltb_spec (header_size p) (length B)) as [Hhb|Hhb].
  - simpl.
    apply (parse_packet_frame pre B rest f more id p ver);
      [exact (Hown p Hfp)|done..].
  - exists ver, []. simpl. split; [|done]. f_equal. exact Hsave.
Qed.

Lemma loop_S packets fuel fp ver :
  loop (S fuel) packets fp ver
  = if tell fp <? fp_length fp then
      match body packets fp ver with
      | Saved save ver evs => Some (Ok (Some save, ver, evs))
      | Break evs => Some (Ok (None, ver, evs))
      | Next fp ver evs =>
          match loop fuel packets fp ver with
          | Some (Ok (save, ver, rest)) => Some (Ok (save, ver, evs ++ rest))
          | other => other
          end
      | Raise e => Some (Throw e)
      end
    else Some (Ok (None, ver, [])).
Proof. reflexivity. Qed.

(** The loop over a buffer that starts at a frame boundary of the stream:
    it dispatches the frames that are complete, in order, and saves what
    is left from the first frame it cannot dispatch. A frame that is a
    bare header is dispatched only if more bytes follow it: the last frame
    of the stream is dispatched only if it is longer than its header. *)
Lemma loop_frames packets :
  ∀ frames, Forall (λ f, valid_frame packets f = true) frames →
  Forall (reads_own_frame packets) frames →
  ∀ fuel pre B rest ver,
    B ++ rest = concat frames → length B < fuel →
    ∃ done todo save ver' evs,
      loop fuel packets {| buffer := pre ++ B; cursor := length pre |} ver
      = Some (Ok (save, ver', evs))
      ∧ frames = done ++ todo
      ∧ B = concat done ++ default [] save
      ∧ save ≠ Some []
      ∧ calls evs = omap (frame_call packets) done
      ∧ held_back packets (default [] save) todo
      ∧ (todo = [] → ∀ g q, last done = Some g →
           frame_packet packets g = Some q → header_size q < length g).
Proof.
  intros frames Hvalid.
  induction Hvalid as [|f frames Hv Hvalid IH];
    intros Hown fuel pre B rest ver He Hfuel;
    (destruct fuel as [|fuel]; [lia|]); rewrite loop_S;
    unfold tell, fp_length; simpl; rewrite length_app.
  - apply app_eq_nil in He as [-> ->]. simpl.
    destruct (Nat.ltb_spec (length pre) (length pre + 0)); [lia|].
    exists [], [], None, ver, []. by repeat split.
  - apply Forall_cons in Hown as [Ho Hown].
    destruct (valid_frame_inv _ _ Hv) as (id & p & _ & _ & Hfp & _).
    pose proof (valid_frame_header _ _ _ Hv Hfp) as Hh.
    destruct (Nat.ltb_spec (length pre) (length pre + length B)) as [Hpos|Hzero].
    2:{ exists [], (f :: frames), None, ver, [].
        assert (B = []) as -> by (apply nil_length_inv; lia).
        repeat split; try done. simpl. rewrite Hfp.
        by destruct (Nat.ltb_spec (header_size p) 0); [lia|]. }
    destruct (body_frame packets pre B rest f (concat frames) p ver)
      as (ver' & evs & Hb & Hc); try done.
    rewrite Hb.
    destruct ((header_size p <? length B) && (length f <=? length B)) eqn:Hcond.
    + apply andb_true_iff in Hcond as [Hhb Hge].
      apply Nat.ltb_lt in Hhb. apply Nat.leb_le in Hge.
      assert (HlenB : frames = [] → length B ≤ length f).
      { intros ->. simpl in He. rewrite app_nil_r in He.
        rewrite <- He, length_app. lia. }
      pose proof (common_prefix _ _ _ _ He Hge) as HB.
      remember (drop (length f) B) as B' eqn:HB'. clear HB'.
      rewrite HB in He, Hfuel. rewrite HB.
      assert (He' : B' ++ rest = concat frames).
      { rewrite <- app_assoc in He. by apply app_inv_head in He. }
      destruct (IH Hown fuel (pre ++ f) B' rest ver' He')
        as (done & todo & save & ver'' & evs' & Hloop & Hfr & HB' & Hne & Hc'
            & Hh' & Hlast).
      { rewrite length_app in Hfuel. lia. }
      rewrite (app_assoc pre f), <- (length_app pre f), Hloop.
      exists (f :: done), todo, save, ver'', (evs ++ evs').
      split; [done|]. split; [by rewrite Hfr|]. split.
      { simpl. by rewrite <- app_assoc, <- HB'. }
      split; [done|]. split.
      { rewrite calls_app, Hc, Hc'. simpl. unfold frame_call at 2.
        rewrite Hfp. simpl. by destruct (callback p). }
      split; [done|].
      intros Htodo g q Hg Hq. destruct done as [|d done].
      * simpl in Hg. injection Hg as <-.
        assert (q = p) as -> by congruence.
        subst todo. simpl in Hfr. specialize (HlenB Hfr). lia.
      * apply (Hlast Htodo g q); [|done].
        by rewrite <- Hg, (last_cons_cons f d done).
    + exists [], (f :: frames), (Some B), ver', evs.
      split; [done|]. split; [done|]. split; [done|]. split.
      { intros [= ->]. simpl in Hpos. lia. }
      split; [done|]. split; [|done]. simpl. by rewrite Hfp.
Qed.

(** [receive] with no read hook armed is the loop over the carry-over
    followed by the new bytes. *)
Lemma receive_loop packets fuel buf (st : Reassembly) :
  read_callback st = None →
  receive fuel packets buf st
  = match loop fuel packets
            {| buffer := [] ++ default [] (_save_buffer st) ++ buf;
               cursor := length (@nil byte) |} (PACKETVER st) with
    | Some (Ok (save, ver, evs)) =>
        Some (Ok ({| _save_buffer := save; read_callback := None;
                     PACKETVER := ver |}, evs))
    | Some (Throw e) => Some (Throw e)
    | None => None
    end.
Proof.
  intros Hr. unfold receive, new_BinaryReader. rewrite Hr. simpl.
  by destruct (_save_buffer st).
Qed.

(** The state between two calls: the carry-over is the unread head of the
    frames still to come. *)
Lemma receive_all_frames packets :
  ∀ chunks frames fuel (st : Reassembly),
    Forall (λ f, valid_frame packets f = true) frames →
    Forall (reads_own_frame packets) frames →
    read_callback st = None →
    _save_buffer st ≠ Some [] →
    default [] (_save_buffer st) ++ concat chunks = concat frames →
    length (concat frames) < fuel →
    held_back packets (default [] (_save_buffer st)) frames →
    ∃ st' evs done todo,
      receive_all fuel packets chunks st = Some (Ok (st', evs))
      ∧ frames = done ++ todo
      ∧ calls evs = omap (frame_call packets) done
      ∧ default [] (_save_buffer st') = concat todo
      ∧ _save_buffer st' ≠ Some []
      ∧ held_back packets (default [] (_save_buffer st')) todo
      ∧ (todo = [] → ∀ g q, last done = Some g →
           frame_packet packets g = Some q → header_size q < length g).
Proof.
  intros chunks.
  induction chunks as [|buf chunks IH];
    intros frames fuel st Hvalid Hown Hr Hne He Hfuel Hheld; simpl.
  - exists st, [], [], frames. rewrite app_nil_r in He. done.
  - rewrite receive_loop by done. simpl in He. rewrite app_assoc in He.
    destruct (loop_frames packets frames Hvalid Hown fuel []
                (default [] (_save_buffer st) ++ buf) (concat chunks)
                (PACKETVER st) He)
      as (done1 & todo1 & save & ver' & evs1 & Hloop & -> & HB & Hne1 & Hc1
          & Hh1 & Hlast1).
    { rewrite <- He, length_app in Hfuel. lia. }
    rewrite Hloop.
    apply Forall_app in Hvalid as [_ Hvalid1].
    apply Forall_app in Hown as [_ Hown1].
    rewrite HB, concat_app, <- !app_assoc in He. apply app_inv_head in He.
    destruct (IH todo1 fuel
                {| _save_buffer := save; read_callback := None;
                   PACKETVER := ver' |})
      as (st' & evs2 & done2 & todo & Hall & -> & Hc2 & Hs & Hne2 & Hh2 & Hlast2);
      try done.
    { rewrite concat_app, length_app in Hfuel. lia. }
    rewrite Hall.
    exists st', (evs1 ++ evs2), (done1 ++ done2), todo.
    split; [done|]. split; [by rewrite app_assoc|].
    split; [by rewrite calls_app, omap_app, Hc1, Hc2|].
    do 3 (split; [done|]).
    intros Htodo g q Hg Hq. subst todo. rewrite app_nil_r in Hlast1.
    apply last_app_Some in Hg as [Hg|[Hnone Hg]].
    + by apply (Hlast2 eq_refl g q).
    + apply last_None in Hnone. by apply (Hlast1 Hnone g q).
Qed.

(** What the loop cannot dispatch at the end of the stream is at most one
    frame, and that frame is a bare header. *)
Lemma held_back_bare packets todo :
  Forall (λ f, valid_frame packets f = true) todo →
  held_back packets (concat todo) todo →
  todo = [] ∨ ∃ g q, todo = [g] ∧ frame_packet packets g = Some q
                     ∧ length g = header_size q.
Proof.
  intros Hvalid Hheld. destruct todo as [|g todo]; [by left|right].
  apply Forall_cons in Hvalid as [Hv Hvalid].
  destruct (valid_frame_inv _ _ Hv) as (id & q & _ & _ & Hfp & _).
  pose proof (valid_frame_header _ _ _ Hv Hfp) as Hh.
  simpl in Hheld. rewrite Hfp, length_app in Hheld.
  apply andb_false_iff in Hheld as [Hheld|Hheld];
    [apply Nat.ltb_ge in Hheld|apply Nat.leb_gt in Hheld; lia].
  exists g, q. split; [|split; [done|lia]].
  destruct todo as [|g' todo]; [done|]. exfalso.
  apply Forall_cons in Hvalid as [Hg' _].
  destruct (valid_frame_inv _ _ Hg') as (? & q' & _ & _ & Hfp' & _).
  pose proof (valid_frame_header _ _ _ Hg' Hfp').
  simpl in Hheld. rewrite length_app in Hheld. lia.
Qed.

Lemma held_back_start packets frames :
  held_back packets [] frames.
Proof.
  destruct frames as [|f frames]; [done|]. simpl.
  destruct (frame_packet packets f) as [p|]; [|done].
  by destruct (header_size p).
Qed.

(** C1 fails on every stream that ends with a frame that is a bare header
    (a fixed-size packet of 2 bytes, a variable-size frame of 4): however
    the stream is cut into chunks, the calls to [receive] return and hand
    the frames before the last to their handlers, in order, but the last
    frame is never read. It is complete, its packet is registered and may
    have a handler, and it stays in the carry-over, because the loop saves
    and returns when exactly 2 (or 4) bytes are left ([offset + 2 >=
    fp.length], [offset + 4 >= fp.length]). The handler call that is due
    for it is the one missing from the calls made. *)
Theorem receive_all_holds_back_trailing_frame
    packets frames bare p chunks fuel (st : Reassembly) :
  Forall (λ f, valid_frame packets f = true) (frames ++ [bare]) →
  Forall (reads_own_frame packets) (frames ++ [bare]) →
  frame_packet packets bare = Some p →
  length bare = header_size p →
  _save_buffer st = None →
  read_callback st = None →
  concat chunks = concat (frames ++ [bare]) →
  length (concat (frames ++ [bare])) < fuel →
  ∃ st' evs,
    receive_all fuel packets chunks st = Some (Ok (st', evs))
    ∧ calls evs = omap (frame_call packets) frames
    ∧ _save_buffer st' = Some bare
    ∧ ∀ h, callback p = Some h →
        omap (frame_call packets) (frames ++ [bare])
        = calls evs ++ [(h, typed_value p bare)].
Proof.
  intros Hvalid Hown Hfp Hbare Hs Hr He Hfuel.
  assert (Hne0 : _save_buffer st ≠ Some []) by (by rewrite Hs).
  assert (He0 : default [] (_save_buffer st) ++ concat chunks
                = concat (frames ++ [bare])) by (by rewrite Hs).
  assert (Hheld0 : held_back packets (default [] (_save_buffer st))
                     (frames ++ [bare]))
    by (rewrite Hs; apply held_back_start).
  destruct (receive_all_frames packets chunks (frames ++ [bare]) fuel st
              Hvalid Hown Hr Hne0 He0 Hfuel Hheld0)
    as (st' & evs & done & todo & Hall & Hfr & Hc & Hleft & Hne & Hheld & Hlast).
  assert (Htodo : Forall (λ f, valid_frame packets f = true) todo).
  { rewrite Hfr in Hvalid. by apply Forall_app in Hvalid as [_ ?]. }
  rewrite Hleft in Hheld.
  destruct (held_back_bare packets todo Htodo Hheld)
    as [->|(g & q & -> & _ & _)].
  { exfalso. rewrite app_nil_r in Hfr. subst done.
    specialize (Hlast eq_refl bare p (last_snoc _ _) Hfp). lia. }
  apply app_inj_tail in Hfr as [<- <-].
  pose proof (valid_frame_header packets bare p) as Hh.
  apply Forall_app in Hvalid as [_ Hvb]. apply Forall_cons in Hvb as [Hvb _].
  specialize (Hh Hvb Hfp).
  exists st', evs. split; [done|]. split; [done|]. split.
  - simpl in Hleft. rewrite app_nil_r in Hleft.
    destruct (_save_buffer st') as [save|]; simpl in Hleft; [by subst|].
    subst bare. simpl in Hh. lia.
  - intros h Hcb. rewrite omap_app, Hc. f_equal. simpl.
    unfold frame_call. rewrite Hfp. simpl. by rewrite Hcb.
Qed.

(** X25. Chunk-split invariance away from that case: take frames of
    registered packets, each at least as long as its header, whose parsers
    build their value from the bytes of the frame, no read hook armed and
    no carry-over, and a stream that does not end with a bare header.
    However the stream is cut into chunks, the calls to [receive] return,
    hand to the bound handlers exactly the values of the frames that have
    a handler, in the order of the frames, and end with no carry-over. *)
Theorem receive_all_dispatches_frames packets frames chunks fuel (st : Reassembly) :
  Forall (λ f, valid_frame packets f = true) frames →
  Forall (reads_own_frame packets) frames →
  ends_with_payload packets frames = true →
  _save_buffer st = None →
  read_callback st = None →
  concat chunks = concat frames →
  length (concat frames) < fuel →
  ∃ st' evs,
    receive_all fuel packets chunks st = Some (Ok (st', evs))
    ∧ calls evs = omap (frame_call packets) frames
    ∧ _save_buffer st' = None.
Proof.
  intros Hvalid Hown Hend Hs Hr He Hfuel.
  assert (Hne0 : _save_buffer st ≠ Some []) by (by rewrite Hs).
  assert (He0 : default [] (_save_buffer st) ++ concat chunks = concat frames)
    by (by rewrite Hs).
  assert (Hheld0 : held_back packets (default [] (_save_buffer st)) frames)
    by (rewrite Hs; apply held_back_start).
  destruct (receive_all_frames packets chunks frames fuel st
              Hvalid Hown Hr Hne0 He0 Hfuel Hheld0)
    as (st' & evs & done & todo & Hall & -> & Hc & Hleft & Hne & Hheld & _).
  assert (Htodo : Forall (λ f, valid_frame packets f = true) todo)
    by (by apply Forall_app in Hvalid as [_ ?]).
  rewrite Hleft in Hheld.
  destruct (held_back_bare packets todo Htodo Hheld)
    as [->|(g & q & -> & Hq & Hg)].
  2:{ exfalso. unfold ends_with_payload in Hend. rewrite last_snoc in Hend.
      simpl in Hend. rewrite Hq in Hend. simpl in Hend.
      apply Nat.ltb_lt in Hend. lia. }
  exists st', evs. rewrite app_nil_r.
  split; [done|]. split; [done|].
  destruct (_save_buffer st') as [[|]|]; done.
Qed.

End ChunkSplit.

(** ** The properties at concrete inputs *)

Lemma payload_parser_reads_frame (pre f post : list byte) (pos : nat) :
  pos ≤ length f →
  (Demo.payload_parser {| buffer := pre ++ f ++ post; cursor := length pre + pos |}
     (length pre + length f)).1
  = (Demo.payload_parser {| buffer := f; cursor := pos |} (length f)).1.
Proof.
  intros Hpos. unfold Demo.payload_parser. simpl.
  replace (length pre + length f - (length pre + pos)) with (length f - pos)
    by lia.
  rewrite drop_app_add, drop_app_le by done.
  apply take_app_le. rewrite length_drop. lia.
Qed.

Lemma hooked_parsers k p :
  Packets_list Demo.hooked !! k = Some p →
  s_parse (struct p) = Demo.payload_parser.
Proof.
  assert (Packets_list Demo.hooked
          = <["2" := set_callback "onBare" (new_Packets "BARE" Demo.BARE 2)]>
              (<["2748" := set_callback "onVariable"
                             (new_Packets "VARIABLE" Demo.VARIABLE (-1))]>
                 (<["100" := set_callback "onFixed"
                               (new_Packets "FIXED26" Demo.FIXED26 26)]> ∅)))
    as -> by reflexivity.
  revert k p.
  repeat (apply map_Forall_insert_2; [reflexivity|]).
  apply map_Forall_empty.
Qed.

Lemma hooked_reads_own_frame f :
  valid_frame (Packets_list Demo.hooked) f = true →
  reads_own_frame (Packets_list Demo.hooked) f.
Proof.
  intros Hv p Hfp pre post.
  pose proof (valid_frame_header _ _ _ Hv Hfp) as Hh.
  assert (Hparse : s_parse (struct p) = Demo.payload_parser).
  { unfold frame_packet in Hfp. apply bind_Some in Hfp as (id & _ & Hl).
    exact (hooked_parsers _ _ Hl). }
  unfold typed_value. rewrite Hparse.
  apply payload_parser_reads_frame. lia.
Qed.

(** C1 on a variable-size frame of 8 bytes followed by a two-byte frame,
    cut at the boundary between them: the first is dispatched, the second
    stays in the carry-over although its handler is bound. *)
Lemma receive_all_holds_back_trailing_frame_witness :
  ∃ st' evs,
    receive_all 11 (Packets_list Demo.hooked) [Demo.frame8; Demo.frame2] Demo.idle
    = Some (Ok (st', evs))
    ∧ calls evs = [("onVariable", [x01; x02; x03; x04])]
    ∧ _save_buffer st' = Some Demo.frame2
    ∧ ∀ h, Some "onBare" = Some h →
        [("onVariable", [x01; x02; x03; x04]); ("onBare", [])]
        = calls evs ++ [(h, [])].
Proof.
  apply (receive_all_holds_back_trailing_frame (Packets_list Demo.hooked)
           [Demo.frame8] Demo.frame2
           (set_callback "onBare" (new_Packets "BARE" Demo.BARE 2))).
  - repeat constructor.
  - repeat constructor; by apply hooked_reads_own_frame.
  - reflexivity.
  - reflexivity.
  - reflexivity.
  - reflexivity.
  - reflexivity.
  - vm_compute. lia.
Defined.

Lemma frame4_reads_own_frame :
  reads_own_frame (Packets_list Demo.with_field) Demo.frame4.
Proof.
  intros p Hfp pre post.
  assert (p = set_callback "onField" (new_Packets "FIELD4" Demo.FIELD4 4)) as ->
    by (apply (inj Some); rewrite <- Hfp; reflexivity).
  change ((Demo.field_parser
             {| buffer := pre ++ Demo.frame4 ++ post; cursor := length pre + 2 |}
             (length pre + 4)).1 = [xaa; xbb]).
  unfold Demo.field_parser. cbn [buffer cursor fst].
  rewrite lookup_app_r by lia.
  replace (length pre + 2 - length pre) with 2 by lia.
  change ((Demo.frame4 ++ post) !! 2) with (Some xaa). cbv iota.
  rewrite lookup_app_r by lia.
  by replace (S (length pre + 2) - length pre) with 3 by lia.
Qed.

Lemma frame8_reads_own_frame :
  reads_own_frame (Packets_list Demo.with_field) Demo.frame8.
Proof.
  intros p Hfp pre post.
  assert (p = set_callback "onVariable"
                (new_Packets "VARIABLE" Demo.VARIABLE (-1))) as ->
    by (apply (inj Some); rewrite <- Hfp; reflexivity).
  apply (payload_parser_reads_frame pre Demo.frame8 post 4). simpl. lia.
Qed.

(** X25 on a fixed-size frame of 4 bytes, whose parser reads one field
    after the header, and a variable-size frame of 8, cut after 3 and
    after 7 bytes. *)
Lemma receive_all_dispatches_frames_witness :
  ∃ st' evs,
    receive_all 20 (Packets_list Demo.with_field)
      [take 3 Demo.frame4;
       drop 3 Demo.frame4 ++ take 3 Demo.frame8;
       drop 3 Demo.frame8] Demo.idle
    = Some (Ok (st', evs))
    ∧ calls evs = [("onField", [xaa; xbb]);
                   ("onVariable", [x01; x02; x03; x04])]
    ∧ _save_buffer st' = None.
Proof.
  apply (receive_all_dispatches_frames (Packets_list Demo.with_field)
           [Demo.frame4; Demo.frame8]).
  - repeat constructor.
  - repeat constructor;
      [apply frame4_reads_own_frame|apply frame8_reads_own_frame].
  - reflexivity.
  - reflexivity.
  - reflexivity.
  - reflexivity.
  - vm_compute. lia.
Defined.

(** C4 at a complete two-byte frame and at a complete variable-size frame
    of four bytes, each alone in the buffer: both are held back. *)
Lemma receive_saves_bare_header_witness :
  body (Packets_list Demo.hooked) (new_BinaryReader Demo.frame2) Demo.ambiguous
  = Saved Demo.frame2 Demo.ambiguous []
  ∧ body (Packets_list Demo.hooked) (new_BinaryReader [xbc; x0a; x04; x00])
      Demo.ambiguous
    = Saved [xbc; x0a; x04; x00] Demo.ambiguous []
  ∧ receive 5 (Packets_list Demo.hooked) Demo.frame2 Demo.idle
    = Some (Ok ({| _save_buffer := Some Demo.frame2; read_callback := None;
                   PACKETVER := Demo.ambiguous |}, [])).
Proof.
  split; [|split].
  - apply (proj1 (receive_saves_bare_header (Packets_list Demo.hooked)
                    (new_BinaryReader Demo.frame2) Demo.ambiguous)).
    reflexivity.
  - eapply (proj2 (receive_saves_bare_header (Packets_list Demo.hooked)
                     (new_BinaryReader [xbc; x0a; x04; x00]) Demo.ambiguous));
      reflexivity.
  - reflexivity.
Defined.

(** C6 as stated fails: the first 10 bytes of a frame of 26 arrive, the
    frame is saved as carry-over, and its guess hook has been called in
    that same call to [receive] and has narrowed the version range. *)
Lemma guess_called_on_incomplete_frame :
  receive 5 (Packets_list Demo.guessing) (take 10 Demo.frame26) Demo.idle
  = Some (Ok ({| _save_buffer := Some (take 10 Demo.frame26);
                 read_callback := None;
                 PACKETVER := {| ver_min := 20130807; ver_max := 20130807 |} |},
              [Guess 100 26])).
Proof. reflexivity. Qed.

(** The amended C6 on those 10 bytes. *)
Lemma guess_precedes_incomplete_check_witness :
  body (Packets_list Demo.guessing) (new_BinaryReader (take 10 Demo.frame26))
    Demo.ambiguous
  = Saved (take 10 Demo.frame26)
      {| ver_min := 20130807; ver_max := 20130807 |} [Guess 100 26].
Proof.
  eapply (proj1 (guess_precedes_incomplete_check (Packets_list Demo.guessing)
                   (new_BinaryReader (take 10 Demo.frame26)) Demo.ambiguous
                   100%N _ _ 26 _ (Demo.narrow_to 20130807)
                   ltac:(vm_compute; lia) eq_refl eq_refl eq_refl eq_refl
                   ltac:(discriminate))).
  vm_compute. lia.
Defined.

(** C7 on a frame of 8 bytes, the unknown identifier 0x9999 and ten more
    bytes that would be two frames: the first frame is dispatched, the
    rest is dropped and nothing is carried over. *)
Lemma unknown_identifier_discards_rest_witness :
  receive 5 (Packets_list Demo.hooked)
    (Demo.frame8 ++ [x99; x99] ++ Demo.frame2 ++ Demo.frame8) Demo.idle
  = Some (Ok ({| _save_buffer := None; read_callback := None;
                 PACKETVER := Demo.ambiguous |},
              [Recv 2748 [x01; x02; x03; x04] true;
               Callback "onVariable" [x01; x02; x03; x04];
               NotRegister 39321 10]))
  ∧ lookup_packet (Packets_list Demo.hooked) 39321 = None.
Proof.
  split; [reflexivity|].
  eapply (proj2 (unknown_identifier_discards_rest (Packets_list Demo.hooked))
            5 (Demo.frame8 ++ [x99; x99] ++ Demo.frame2 ++ Demo.frame8)
            Demo.idle _ _ 39321%N 10 eq_refl).
  do 2 (apply elem_of_cons; right). apply elem_of_cons. by left.
Defined.

(** C8 as stated fails at length 0: the frame is a variable-size one
    whose length field says 0, its parser reads nothing, and the cursor is
    left 4 bytes past the start of the identifier, not 0. *)
Lemma zero_length_frame_is_not_stepped_over :
  body (Packets_list Demo.with_idle)
    (new_BinaryReader [x07; x00; x00; x00; xff]) Demo.ambiguous
  = Next {| buffer := [x07; x00; x00; x00; xff]; cursor := 4 |}
      Demo.ambiguous [Recv 7 [] false].
Proof. reflexivity. Qed.

(** The amended C8 on a frame of declared length 8 with four bytes of
    payload: the cursor ends at offset 8. *)
Lemma variable_frame_advances_cursor_witness :
  ∃ fp' ver' evs,
    body (Packets_list Demo.hooked) (new_BinaryReader Demo.frame8) Demo.ambiguous
    = Next fp' ver' evs
    ∧ tell fp' = 8.
Proof.
  destruct (variable_frame_advances_cursor (Packets_list Demo.hooked)
              (new_BinaryReader Demo.frame8) Demo.ambiguous 2748%N _ _ 8%N _
              ltac:(vm_compute; lia) eq_refl eq_refl eq_refl eq_refl
              ltac:(vm_compute; lia))
    as (fp' & ver' & evs & Hb & _ & Ht & _).
  exists fp', ver', evs. split; [exact Hb|]. by apply Ht.
Defined.

(** ** What every call to [receive] keeps *)

Section ReceiveInvariants.
Context {Data Handler : Type}.
Implicit Types (packets : gmap string (Packets Data Handler))
  (packet : Packets Data Handler) (fp : BinaryReader) (ver : PacketVer)
  (evs : list (Event Data Handler)) (st : Reassembly).

(** The two ways out of [parse_packet]. *)
Lemma parse_packet_cases id packet length start fp ver :
  ∃ ver' guessed,
    (guessed = [] ∧ ver' = ver
     ∨ ∃ hook, guess packet = Some hook ∧ ver_min ver ≠ ver_max ver
               ∧ guessed = [Guess id length] ∧ ver' = hook length ver)
    ∧ (fp_length fp < start + length
       ∧ parse_packet id packet length start fp ver
         = Saved (drop (tell fp - header_size packet) (buffer fp)) ver' guessed
       ∨ ∃ data pos,
           s_parse (struct packet) fp (start + length) = (data, pos)
           ∧ start + length ≤ fp_length fp
           ∧ parse_packet id packet length start fp ver
             = Next {| buffer := buffer fp;
                       cursor := if length =? 0 then pos else start + length |}
                 ver'
                 (guessed ++ Recv id data (bool_decide (is_Some (callback packet))) ::
                  match callback packet with
                  | Some h => [Callback h data]
                  | None => []
                  end)).
Proof.
  unfold parse_packet.
  set (g := match guess packet with
            | Some hook =>
                if negb (ver_min ver =? ver_max ver)%N
                then (hook length ver, [Guess id length])
                else (ver, [])
            | None => (ver, [])
            end).
  assert (Hg : (g.2 = [] ∧ g.1 = ver)
               ∨ ∃ hook, guess packet = Some hook ∧ ver_min ver ≠ ver_max ver
                         ∧ g.2 = [Guess id length] ∧ g.1 = hook length ver).
  { unfold g. destruct (guess packet) as [hook|]; [|by left].
    destruct (N.eqb_spec (ver_min ver) (ver_max ver)); simpl; [by left|].
    right. by exists hook. }
  destruct g as [ver' guessed]. simpl in Hg. exists ver', guessed.
  split; [done|].
  destruct (Nat.ltb_spec (fp_length fp) (start + length)).
  - left. split; [done|]. unfold fp_length. by rewrite Uint8Array_tail.
  - right. destruct (s_parse (struct packet) fp (start + length)) as [data pos].
    exists data, pos. split; [done|]. split; [done|].
    by destruct (length =? 0).
Qed.

(** The ways out of one turn of the loop. *)
Lemma body_cases packets fp ver :
  body packets fp ver = Saved (drop (tell fp) (buffer fp)) ver []
  ∨ (∃ id, lookup_packet packets id = None
           ∧ body packets fp ver
             = Break [NotRegister id (fp_length fp - (tell fp + 2))])
  ∨ ∃ id packet length fp2,
      lookup_packet packets id = Some packet
      ∧ buffer fp2 = buffer fp
      ∧ tell fp2 = tell fp + header_size packet
      ∧ body packets fp ver = parse_packet id packet length (tell fp) fp2 ver.
Proof.
  pose proof (body_no_raise packets fp ver RangeError) as Hraise.
  unfold body in *.
  destruct (Nat.leb_spec (fp_length fp) (tell fp + 2)) as [H2|H2].
  { left. unfold fp_length. by rewrite Uint8Array_tail. }
  destruct (readUShort fp) as [[id fp1]|] eqn:Hr; [|done].
  apply readUShort_Some in Hr as [_ ->].
  destruct (lookup_packet packets id) as [packet|] eqn:Hl.
  2:{ right. left. by exists id. }
  destruct (packet_length packet (tell fp) (seek (cursor fp + 2) fp))
    as [|length fp2|] eqn:Hpl; [| |done].
  - left. unfold fp_length. simpl. by rewrite Uint8Array_tail.
  - right. right. exists id, packet, length, fp2.
    apply packet_length_Length in Hpl as [Hbuf Hcur]. simpl in *.
    split; [done|]. split; [done|]. split; [unfold tell; lia|done].
Qed.

(** A turn of the loop leaves the bytes alone, and saves nothing but the
    bytes from the place where it started. *)
Lemma body_buffer packets fp ver :
  match body packets fp ver with
  | Saved save _ _ => save = drop (tell fp) (buffer fp)
  | Next fp' _ _ => buffer fp' = buffer fp
  | _ => True
  end.
Proof.
  destruct (body_cases packets fp ver)
    as [->|[(id & _ & ->)|(id & packet & length & fp2 & _ & Hb & Ht & ->)]];
    [done..|].
  destruct (parse_packet_cases id packet length (tell fp) fp2 ver)
    as (ver' & guessed & _ & [(_ & ->)|(data & pos & _ & _ & ->)]).
  - rewrite Hb. f_equal. lia.
  - done.
Qed.

Lemma loop_saves_suffix packets fuel : ∀ fp ver save ver' evs,
  loop fuel packets fp ver = Some (Ok (Some save, ver', evs)) →
  ∃ k, k < fp_length fp ∧ save = drop k (buffer fp).
Proof.
  induction fuel as [|fuel IH]; intros fp ver save ver' evs; [done|].
  rewrite loop_S.
  destruct (Nat.ltb_spec (tell fp) (fp_length fp)) as [Hlt|]; [|done].
  pose proof (body_buffer packets fp ver) as Hb.
  destruct (body packets fp ver) as [s v e|e|fp1 v e|e]; try done.
  - intros [= <- <- <-]. by exists (tell fp).
  - destruct (loop fuel packets fp1 v) as [[[[s1 v1] rest]|]|] eqn:Hloop;
      [|done..].
    intros [= -> <- <-]. apply IH in Hloop as (k & Hk & ->).
    exists k. unfold fp_length in *. by rewrite <- Hb.
Qed.

(** X1. Whatever the registry, the parsers and the read hook do: when a
    call to [receive] returns, the carry-over is either null or a tail of
    the bytes at hand (the old carry-over followed by the new chunk) that
    is not empty. *)
Theorem receive_saves_nonempty_tail packets fuel buf st st' evs :
  receive fuel packets buf st = Some (Ok (st', evs)) →
  _save_buffer st' = None
  ∨ ∃ k, k < length (default [] (_save_buffer st) ++ buf)
         ∧ _save_buffer st'
           = Some (drop k (default [] (_save_buffer st) ++ buf))
         ∧ drop k (default [] (_save_buffer st) ++ buf) ≠ [].
Proof.
  unfold receive.
  assert (Hbuf : match _save_buffer st with
                 | Some saved => saved ++ buf
                 | None => buf
                 end = default [] (_save_buffer st) ++ buf)
    by (by destruct (_save_buffer st)).
  rewrite Hbuf. set (b := default [] (_save_buffer st) ++ buf).
  set (fp0 := match read_callback st with
              | Some cb => _
              | None => _
              end).
  assert (Hfp : buffer fp0.1 = b) by (unfold fp0; by destruct (read_callback st)).
  destruct fp0 as [fp hooked]. simpl in Hfp.
  destruct (loop fuel packets fp (PACKETVER st)) as [[[[save v] e]|]|] eqn:Hloop;
    [|done..].
  intros [= <- <-]. simpl. destruct save as [save|]; [right|by left].
  apply loop_saves_suffix in Hloop as (k & Hk & ->).
  unfold fp_length in Hk. rewrite Hfp in *. exists k.
  split; [done|]. split; [done|].
  intros Hnil. apply (f_equal length) in Hnil. rewrite length_drop in Hnil.
  simpl in Hnil. lia.
Qed.

(** With parsers that read forwards every turn of the loop moves the
    cursor on. *)
Lemma body_advances packets fp ver fp' ver' evs :
  advancing packets →
  body packets fp ver = Next fp' ver' evs →
  tell fp < tell fp' ∧ buffer fp' = buffer fp.
Proof.
  intros Hadv Hbody.
  destruct (body_cases packets fp ver)
    as [H|[(id & _ & H)|(id & packet & length & fp2 & Hl & Hb & Ht & H)]];
    rewrite H in Hbody; [done..|].
  destruct (parse_packet_cases id packet length (tell fp) fp2 ver)
    as (v & guessed & _ & [(_ & Hp)|(data & pos & Hparse & _ & Hp)]);
    rewrite Hp in Hbody; [done|].
  injection Hbody as <- _ _. simpl. split; [|done].
  unfold tell. simpl.
  assert (2 ≤ header_size packet)
    by (unfold header_size; destruct (size packet <? 0)%Z; lia).
  destruct (Nat.eqb_spec length 0); [|unfold tell; lia].
  pose proof (Hadv _ _ Hl fp2 (tell fp + length)) as Hpos.
  rewrite Hparse in Hpos. simpl in Hpos. unfold tell in *. lia.
Qed.

Lemma loop_returns packets :
  advancing packets →
  ∀ fuel fp ver,
    fp_length fp - tell fp < fuel →
    ∃ save ver' evs, loop fuel packets fp ver = Some (Ok (save, ver', evs)).
Proof.
  intros Hadv fuel.
  induction fuel as [|fuel IH]; intros fp ver Hfuel; [lia|].
  rewrite loop_S.
  destruct (Nat.ltb_spec (tell fp) (fp_length fp)) as [Hlt|]; [|by eauto].
  pose proof (body_no_raise packets fp ver) as Hraise.
  destruct (body packets fp ver) as [s v e|e|fp1 v e|e] eqn:Hbody;
    [by eauto|by eauto| |by destruct (Hraise e)].
  destruct (body_advances _ _ _ _ _ _ Hadv Hbody) as [Hadvance Hbuf].
  destruct (IH fp1 v) as (save & ver' & evs & ->); [|by eauto].
  unfold fp_length in *. rewrite Hbuf. lia.
Qed.

(** X2. With parsers that read forwards, [receive] returns: fuel beyond
    the number of bytes at hand is enough, whatever the bytes, the
    registry and the read hook. *)
Theorem receive_returns packets fuel buf st :
  advancing packets →
  length (default [] (_save_buffer st) ++ buf) < fuel →
  ∃ st' evs, receive fuel packets buf st = Some (Ok (st', evs)).
Proof.
  intros Hadv Hfuel. unfold receive.
  assert (Hbuf : match _save_buffer st with
                 | Some saved => saved ++ buf
                 | None => buf
                 end = default [] (_save_buffer st) ++ buf)
    by (by destruct (_save_buffer st)).
  rewrite Hbuf. set (b := default [] (_save_buffer st) ++ buf) in *.
  set (fp0 := match read_callback st with
              | Some cb => _
              | None => _
              end).
  assert (Hfp : buffer fp0.1 = b) by (unfold fp0; by destruct (read_callback st)).
  destruct fp0 as [fp hooked]. simpl in Hfp.
  destruct (loop_returns packets Hadv fuel fp (PACKETVER st))
    as (save & ver' & evs & ->); [|by eauto].
  unfold fp_length. rewrite Hfp. lia.
Qed.

(** A turn of the loop with the version range collapsed, or without
    guess hooks. *)
Lemma body_without_guess packets fp ver :
  ver_min ver = ver_max ver ∨ no_guess packets →
  match body packets fp ver with
  | Saved _ ver' evs | Next _ ver' evs =>
      ver' = ver ∧ ∀ id n, Guess id n ∉ evs
  | Break evs => ∀ id n, Guess id n ∉ evs
  | Raise _ => True
  end.
Proof.
  intros Hinert.
  destruct (body_cases packets fp ver)
    as [->|[(id & _ & ->)|(id & packet & length & fp2 & Hl & _ & _ & ->)]].
  - split; [done|]. intros ? ?. apply not_elem_of_nil.
  - intros id' n Hin. by apply list_elem_of_singleton in Hin.
  - destruct (parse_packet_cases id packet length (tell fp) fp2 ver)
      as (v & guessed & Hg & Hp).
    assert (guessed = [] ∧ v = ver) as [-> ->].
    { destruct Hg as [|(hook & Hhook & Hne & _)]; [done|]. exfalso.
      destruct Hinert as [Heq|Hno]; [done|].
      unfold lookup_packet in Hl. by rewrite (Hno _ _ Hl) in Hhook. }
    destruct Hp as [(_ & ->)|(data & pos & _ & _ & ->)].
    + split; [done|]. intros ? ?. apply not_elem_of_nil.
    + split; [done|]. intros id' n Hin. simpl in Hin.
      destruct (callback packet);
        repeat (apply elem_of_cons in Hin as [Hin|Hin]; [discriminate Hin|]);
        by apply elem_of_nil in Hin.
Qed.

Lemma loop_without_guess packets fuel : ∀ fp ver save ver' evs,
  ver_min ver = ver_max ver ∨ no_guess packets →
  loop fuel packets fp ver = Some (Ok (save, ver', evs)) →
  ver' = ver ∧ ∀ id n, Guess id n ∉ evs.
Proof.
  induction fuel as [|fuel IH]; intros fp ver save ver' evs Hinert; [done|].
  rewrite loop_S. destruct (tell fp <? fp_length fp).
  2:{ intros [= <- <- <-]. split; [done|]. intros ? ?. apply not_elem_of_nil. }
  pose proof (body_without_guess packets fp ver Hinert) as Hb.
  destruct (body packets fp ver) as [s v e|e|fp1 v e|e]; [| | |done].
  - by intros [= <- <- <-].
  - by intros [= <- <- <-].
  - destruct Hb as [-> Hno].
    destruct (loop fuel packets fp1 ver) as [[[[s1 v1] rest]|]|] eqn:Hrec;
      [|done..].
    intros [= <- <- <-]. destruct (IH _ _ _ _ _ Hinert Hrec) as [-> Hno'].
    split; [done|]. intros id n Hin. apply elem_of_app in Hin as [Hin|Hin].
    + by apply Hno in Hin.
    + by apply Hno' in Hin.
Qed.

(** X3. Once the version range has collapsed to one value, or when no
    packet has a guess hook, a call to [receive] calls no guess hook and
    leaves the range as it was. *)
Theorem receive_without_guess packets fuel buf st st' evs :
  ver_min (PACKETVER st) = ver_max (PACKETVER st) ∨ no_guess packets →
  receive fuel packets buf st = Some (Ok (st', evs)) →
  PACKETVER st' = PACKETVER st ∧ ∀ id n, Guess id n ∉ evs.
Proof.
  intros Hinert. unfold receive.
  set (fp0 := match read_callback st with
              | Some cb => _
              | None => _
              end).
  assert (Hh : ∀ id n, @Guess Data Handler id n ∉ fp0.2).
  { intros id n Hin. unfold fp0 in Hin. destruct (read_callback st); simpl in Hin.
    - by apply list_elem_of_singleton in Hin.
    - by apply elem_of_nil in Hin. }
  destruct fp0 as [fp hooked]. simpl in Hh.
  destruct (loop fuel packets fp (PACKETVER st)) as [[[[save v] e]|]|] eqn:Hrec;
    [|done..].
  intros [= <- <-]. simpl.
  destruct (loop_without_guess _ _ _ _ _ _ _ Hinert Hrec) as [-> Hno].
  split; [done|]. intros id n Hin. apply elem_of_app in Hin as [Hin|Hin].
  - by apply Hh in Hin.
  - by apply Hno in Hin.
Qed.

(** Where the events of a turn come from: the read hook is not among
    them, and a handler is called with the value just parsed for a packet
    it is bound to. *)
Lemma body_event_origin packets fp ver :
  match body packets fp ver with
  | Saved _ _ evs | Next _ _ evs | Break evs =>
      ∀ e, e ∈ evs →
        e ≠ ReadHook
        ∧ ∀ h d, e = Callback h d →
            ∃ id packet,
              Recv id d true ∈ evs
              ∧ lookup_packet packets id = Some packet
              ∧ callback packet = Some h
  | Raise _ => True
  end.
Proof.
  destruct (body_cases packets fp ver)
    as [->|[(id & _ & ->)|(id & packet & length & fp2 & Hl & _ & _ & ->)]].
  - intros e Hin. by apply elem_of_nil in Hin.
  - intros e Hin. by apply list_elem_of_singleton in Hin as ->.
  - destruct (parse_packet_cases id packet length (tell fp) fp2 ver)
      as (v & guessed & Hg & [(_ & ->)|(data & pos & _ & _ & ->)]).
    + intros e Hin.
      destruct Hg as [[-> _]|(hook & _ & _ & -> & _)];
        [by apply elem_of_nil in Hin|].
      by apply list_elem_of_singleton in Hin as ->.
    + intros e Hin. apply elem_of_app in Hin as [Hin|Hin].
      { destruct Hg as [[-> _]|(hook & _ & _ & -> & _)];
          [by apply elem_of_nil in Hin|].
        by apply list_elem_of_singleton in Hin as ->. }
      apply elem_of_cons in Hin as [->|Hin]; [done|].
      destruct (callback packet) as [h|] eqn:Hcb; [|by apply elem_of_nil in Hin].
      apply list_elem_of_singleton in Hin as ->. split; [done|].
      intros h' d [= <- <-]. exists id, packet. split; [|done].
      apply elem_of_app. right. rewrite bool_decide_eq_true_2 by eauto.
      apply elem_of_cons. by left.
Qed.

Lemma loop_event_origin packets fuel : ∀ fp ver save ver' evs,
  loop fuel packets fp ver = Some (Ok (save, ver', evs)) →
  ∀ e, e ∈ evs →
    e ≠ ReadHook
    ∧ ∀ h d, e = Callback h d →
        ∃ id packet,
          Recv id d true ∈ evs
          ∧ lookup_packet packets id = Some packet
          ∧ callback packet = Some h.
Proof.
  induction fuel as [|fuel IH]; intros fp ver save ver' evs; [done|].
  rewrite loop_S. destruct (tell fp <? fp_length fp).
  2:{ intros [= <- <- <-] e Hin. by apply elem_of_nil in Hin. }
  pose proof (body_event_origin packets fp ver) as Hb.
  destruct (body packets fp ver) as [s v e1|e1|fp1 v e1|?]; [| | |done].
  - by intros [= <- <- <-].
  - by intros [= <- <- <-].
  - destruct (loop fuel packets fp1 v) as [[[[s1 v1] rest]|]|] eqn:Hrec;
      [|done..].
    intros [= <- <- <-] e Hin.
    apply elem_of_app in Hin as [Hin|Hin].
    + destruct (Hb e Hin) as [Hne Hcall]. split; [done|].
      intros h d He. destruct (Hcall h d He) as (id & packet & Hr & Hl & Hc).
      exists id, packet. split; [|done]. apply elem_of_app. by left.
    + destruct (IH _ _ _ _ _ Hrec e Hin) as [Hne Hcall]. split; [done|].
      intros h d He. destruct (Hcall h d He) as (id & packet & Hr & Hl & Hc).
      exists id, packet. split; [|done]. apply elem_of_app. by right.
Qed.

(** X4. A handler is only ever called with a value that the same call to
    [receive] has parsed from a frame whose identifier is bound to a
    packet carrying that handler. *)
Theorem receive_calls_bound_handlers packets fuel buf st st' evs h d :
  receive fuel packets buf st = Some (Ok (st', evs)) →
  Callback h d ∈ evs →
  ∃ id packet,
    Recv id d true ∈ evs
    ∧ lookup_packet packets id = Some packet
    ∧ callback packet = Some h.
Proof.
  unfold receive.
  set (fp0 := match read_callback st with
              | Some cb => _
              | None => _
              end).
  assert (Hh : fp0.2 = [] ∨ fp0.2 = [@ReadHook Data Handler])
    by (unfold fp0; destruct (read_callback st); auto).
  destruct fp0 as [fp hooked]. simpl in Hh.
  destruct (loop fuel packets fp (PACKETVER st)) as [[[[save v] e]|]|] eqn:Hrec;
    [|done..].
  intros [= <- <-] Hin.
  assert (Hin' : Callback h d ∈ e).
  { apply elem_of_app in Hin as [Hin|Hin]; [|done].
    destruct Hh as [->| ->]; [by apply elem_of_nil in Hin|].
    by apply list_elem_of_singleton in Hin. }
  destruct (loop_event_origin _ _ _ _ _ _ _ Hrec _ Hin') as [_ Hcall].
  destruct (Hcall h d eq_refl) as (id & packet & Hr & Hl & Hc).
  exists id, packet. split; [|done]. apply elem_of_app. by right.
Qed.

(** X5. The read hook is one-shot. A call to [receive] that returns
    leaves no hook armed; it runs an armed hook once, before anything
    else, and runs none if none is armed. A hook that leaves the cursor at
    or beyond the end of the bytes ends the call: nothing is parsed and
    nothing is carried over, the old carry-over included. *)
Theorem receive_read_hook_once packets fuel buf st :
  (∀ st' evs,
     receive fuel packets buf st = Some (Ok (st', evs)) →
     read_callback st' = None
     ∧ match read_callback st with
       | Some _ => ∃ rest, evs = ReadHook :: rest ∧ ReadHook ∉ rest
       | None => ReadHook ∉ evs
       end)
  ∧ (∀ cb,
       read_callback st = Some cb →
       (∀ fp, fp_length fp ≤ cb fp) →
       receive (S fuel) packets buf st
       = Some (Ok ({| _save_buffer := None; read_callback := None;
                      PACKETVER := PACKETVER st |}, [ReadHook]))).
Proof.
  split.
  - intros st' evs. unfold receive.
    destruct (read_callback st) as [cb|].
    + match goal with |- context [loop fuel packets ?fp ?v] =>
        destruct (loop fuel packets fp v) as [[[[save v'] e]|]|] eqn:Hrec;
          [|done..] end.
      intros [= <- <-]. split; [done|]. exists e. split; [done|].
      intros Hin. by destruct (loop_event_origin _ _ _ _ _ _ _ Hrec _ Hin).
    + match goal with |- context [loop fuel packets ?fp ?v] =>
        destruct (loop fuel packets fp v) as [[[[save v'] e]|]|] eqn:Hrec;
          [|done..] end.
      intros [= <- <-]. split; [done|].
      intros Hin. by destruct (loop_event_origin _ _ _ _ _ _ _ Hrec _ Hin).
  - intros cb Hcb Hend. unfold receive. rewrite Hcb. rewrite loop_S.
    match goal with |- context [tell ?fp <? fp_length ?fp] =>
      destruct (Nat.ltb_spec (tell fp) (fp_length fp)) as [Hlt|]; [|done];
      exfalso; revert Hlt end.
    unfold tell, fp_length. simpl.
    match goal with |- cb ?fp < _ → _ => pose proof (Hend fp) as H end.
    unfold fp_length in H. simpl in H. lia.
Qed.

End ReceiveInvariants.

(** ** How registrations and bindings compose *)

Section RegistryComposition.
Context {Data Handler : Type}.
Implicit Types (r : Registry Data Handler) (s : Struct Data) (id : JsKey)
  (p : Packets Data Handler).

Lemma update_packet_Ok fn (f : Packets Data Handler → Packets Data Handler) r s r' :
  update_packet fn f s r = Ok r' →
  ∃ id p,
    packet_id r s = Some id ∧ truthy id = true
    ∧ Packets_list r !! prop_name id = Some p
    ∧ r' = {| Packets_list := <[prop_name id := f p]> (Packets_list r);
              struct_id := struct_id r |}.
Proof.
  unfold update_packet.
  destruct (packet_id r s) as [id|] eqn:Hid; simpl; [|done].
  destruct (truthy id) eqn:Ht; simpl; [|done].
  destruct (Packets_list r !! prop_name id) as [p|] eqn:Hp; [|done].
  intros [= <-]. by exists id, p.
Qed.


(** X7. Binding again replaces the handler: the second [hookPacket] on a
    struct succeeds and gives the registry that it would have given
    without the first. *)
Theorem hookPacket_last_wins r s r1 (cb1 cb2 : Handler) :
  hookPacket s cb1 r = Ok r1 →
  hookPacket s cb2 r1 = hookPacket s cb2 r
  ∧ ∃ r2, hookPacket s cb2 r1 = Ok r2.
Proof.
  intros H. apply update_packet_Ok in H as (id & p & Hid & Ht & Hp & ->).
  unfold hookPacket.
  rewrite (update_packet_truthy _ _ r s id p Hid Ht Hp).
  erewrite update_packet_truthy; [|exact Hid|exact Ht|simpl; apply lookup_insert_eq].
  simpl. rewrite insert_insert_eq. eauto.
Qed.

(** X8. A handler and a guess hook can be bound in either order: if
    [hookPacket] followed by [guessPacketVer] succeeds, so does
    [guessPacketVer] followed by [hookPacket], with the same registry. *)
Theorem bindings_commute r s1 s2 r1 r12 (cb : Handler) (hook : GuessHook) :
  hookPacket s1 cb r = Ok r1 →
  guessPacketVer s2 hook r1 = Ok r12 →
  ∃ r2, guessPacketVer s2 hook r = Ok r2 ∧ hookPacket s1 cb r2 = Ok r12.
Proof.
  intros H1 H2.
  apply update_packet_Ok in H1 as (id1 & p1 & Hid1 & Ht1 & Hp1 & ->).
  apply update_packet_Ok in H2 as (id2 & p2 & Hid2 & Ht2 & Hp2 & ->).
  simpl in *. unfold hookPacket, guessPacketVer.
  destruct (decide (prop_name id1 = prop_name id2)) as [Heq|Hne].
  - rewrite Heq, lookup_insert_eq in Hp2. injection Hp2 as <-.
    rewrite Heq in Hp1.
    eexists. split; [by apply (update_packet_truthy _ _ r s2 id2 p1)|].
    erewrite update_packet_truthy;
      [|exact Hid1|exact Ht1|simpl; rewrite Heq; apply lookup_insert_eq].
    simpl. by rewrite Heq, !insert_insert_eq.
  - rewrite lookup_insert_ne in Hp2 by done.
    eexists. split; [by apply (update_packet_truthy _ _ r s2 id2 p2)|].
    erewrite update_packet_truthy;
      [|exact Hid1|exact Ht1|simpl; by rewrite lookup_insert_ne].
    simpl. by rewrite insert_insert_ne.
Qed.

(** X9. [hookPacket] follows the identifier last stamped on the struct.
    A struct registered under two identifiers is bound under the second
    only: the definition under the first keeps no handler, so its frames
    are parsed and dropped. *)
Theorem hookPacket_binds_last_identifier r s id1 id2 (cb : Handler) :
  prop_name id1 ≠ prop_name id2 →
  truthy id2 = true →
  ∃ r',
    hookPacket s cb (registerPacket id2 s (registerPacket id1 s r)) = Ok r'
    ∧ callback <$> Packets_list r' !! prop_name id2 = Some (Some cb)
    ∧ callback <$> Packets_list r' !! prop_name id1 = Some None.
Proof.
  intros Hne Ht.
  destruct (hookPacket_registered (registerPacket id1 s r) s id2 cb Ht)
    as (r' & Hhook & Hp).
  exists r'. split; [done|]. split; [by rewrite Hp|].
  apply update_packet_Ok in Hhook as (id & p & Hid & _ & _ & ->).
  rewrite registerPacket_packet_id in Hid. injection Hid as <-.
  simpl. rewrite !lookup_insert_ne by done. by rewrite lookup_insert_eq.
Qed.

(** X10. A struct that lost its identifier to another struct can still be
    hooked, and the handler lands on the definition of the struct that
    took the identifier over: it will be called with the values that the
    other struct parses. *)
Theorem hookPacket_after_takeover r (a b : Struct Data) id (cb : Handler) :
  sref a ≠ sref b →
  truthy id = true →
  ∃ r',
    hookPacket a cb (registerPacket id b (registerPacket id a r)) = Ok r'
    ∧ Packets_list r' !! prop_name id
      = Some {| name := s_name b; struct := b; size := s_size b;
                callback := Some cb; guess := None |}.
Proof.
  intros Hne Ht. eexists. split.
  - unfold hookPacket. eapply update_packet_truthy; [|exact Ht|].
    + unfold packet_id, registerPacket. simpl.
      rewrite lookup_insert_ne by done. apply lookup_insert_eq.
    + apply registerPacket_lookup.
  - simpl. by rewrite lookup_insert_eq.
Qed.

Lemma register_all_cons k s (table : list (string * Struct Data)) r :
  register_all ((k, s) :: table) r
  = register_all table (registerPacket (KStr k) s r).
Proof. reflexivity. Qed.

Lemma register_all_other_key (table : list (string * Struct Data)) : ∀ r k,
  k ∉ table.*1 →
  Packets_list (register_all table r) !! k = Packets_list r !! k.
Proof.
  induction table as [|[k0 s0] table IH]; intros r k Hk; [done|].
  rewrite register_all_cons. simpl in Hk. apply not_elem_of_cons in Hk as [Hne Hk].
  rewrite IH by done. unfold registerPacket. simpl.
  by rewrite lookup_insert_ne.
Qed.

Lemma register_all_other_struct (table : list (string * Struct Data)) : ∀ r s,
  sref s ∉ sref <$> table.*2 →
  packet_id (register_all table r) s = packet_id r s.
Proof.
  induction table as [|[k0 s0] table IH]; intros r s Hs; [done|].
  rewrite register_all_cons. simpl in Hs. apply not_elem_of_cons in Hs as [Hne Hs].
  rewrite IH by done. unfold packet_id, registerPacket. simpl.
  by rewrite lookup_insert_ne.
Qed.

Lemma register_all_snoc (table : list (string * Struct Data)) k s r :
  register_all (table ++ [(k, s)]) r
  = registerPacket (KStr k) s (register_all table r).
Proof. unfold register_all. by rewrite foldl_app. Qed.

(** Every struct of the table carries a key of the table, and every key
    of the table names a definition. *)
Lemma register_all_stamped (table : list (string * Struct Data)) r s :
  sref s ∈ sref <$> table.*2 →
  ∃ k, k ∈ table.*1 ∧ packet_id (register_all table r) s = Some (KStr k).
Proof.
  induction table as [|[k0 s0] table IH] using rev_ind; intros Hin.
  { by apply elem_of_nil in Hin. }
  rewrite register_all_snoc. unfold packet_id, registerPacket. simpl.
  rewrite !fmap_app in *. simpl in *.
  destruct (decide (sref s0 = sref s)) as [Heq|Hne].
  - exists k0. rewrite Heq, lookup_insert_eq.
    split; [|done]. apply elem_of_app. right. by apply list_elem_of_singleton.
  - apply elem_of_app in Hin as [Hin|Hin].
    + destruct (IH Hin) as (k & Hk & Hid). exists k.
      rewrite lookup_insert_ne by done.
      split; [|done]. apply elem_of_app. by left.
    + apply list_elem_of_singleton in Hin. congruence.
Qed.

Lemma register_all_bound (table : list (string * Struct Data)) r k :
  k ∈ table.*1 → is_Some (Packets_list (register_all table r) !! k).
Proof.
  induction table as [|[k0 s0] table IH] using rev_ind; intros Hin.
  { by apply elem_of_nil in Hin. }
  rewrite register_all_snoc. unfold registerPacket. simpl.
  rewrite fmap_app in Hin. simpl in Hin.
  destruct (decide (k0 = k)) as [->|Hne]; [by rewrite lookup_insert_eq|].
  rewrite lookup_insert_ne by done.
  apply elem_of_app in Hin as [Hin|Hin]; [by apply IH|].
  apply list_elem_of_singleton in Hin. congruence.
Qed.

(** Bindings keep the identifiers stamped on the structs and the set of
    bound identifiers. *)
Lemma bind_all_keeps (bindings : list (Binding Data Handler)) : ∀ r,
  struct_id (bind_all bindings r) = struct_id r
  ∧ ∀ k, is_Some (Packets_list (bind_all bindings r) !! k)
         ↔ is_Some (Packets_list r !! k).
Proof.
  induction bindings as [|b bindings IH]; intros r; [done|].
  change (bind_all (b :: bindings) r)
    with (bind_all bindings match bind b r with Ok r' => r' | Throw _ => r end).
  destruct (bind b r) as [r'|e] eqn:Hb; [|apply IH].
  destruct (IH r') as [Hid Hdom]. rewrite Hid. clear IH Hid.
  assert (Hup : ∃ fn f, update_packet fn f (match b with
                                            | Hook s _ | GuessVer s _ => s
                                            end) r = Ok r').
  { destruct b; simpl in Hb; eauto. }
  destruct Hup as (fn & f & Hup).
  apply update_packet_Ok in Hup as (id & p & _ & _ & Hp & ->). simpl.
  split; [done|]. intros k. rewrite Hdom. simpl.
  destruct (decide (k = prop_name id)) as [->|Hne].
  - by rewrite lookup_insert_eq, Hp.
  - by rewrite lookup_insert_ne.
Qed.

(** C9: after the start-up loop has registered the table of packets, whose
    keys are the identifiers spelled as strings, and after any bindings
    made since, binding a handler or a guess hook to a struct of the table
    succeeds and sets that hook on the definition under the struct's key,
    also for the key ["0"]; binding to a struct that is not in the table
    throws the not-yet-registered error that names the function and the
    packet. Both functions behave alike. *)
Theorem binding_needs_registration
    (table : list (string * Struct Data)) (bindings : list (Binding Data Handler))
    s (cb : Handler) (hook : GuessHook) :
  Forall (λ k, k ≠ "") table.*1 →
  let r := bind_all bindings (register_all table empty_Registry) in
  (sref s ∈ sref <$> table.*2 →
     ∃ k, k ∈ table.*1 ∧ packet_id r s = Some (KStr k)
       ∧ (∃ r', hookPacket s cb r = Ok r'
                ∧ callback <$> Packets_list r' !! k = Some (Some cb))
       ∧ (∃ r', guessPacketVer s hook r = Ok r'
                ∧ guess <$> Packets_list r' !! k = Some (Some hook)))
  ∧ (sref s ∉ sref <$> table.*2 →
       hookPacket s cb r = Throw (NotYetRegister "HookPacket" (s_name s))
       ∧ guessPacketVer s hook r
         = Throw (NotYetRegister "GuessPacketVer" (s_name s))).
Proof.
  intros Hkeys r.
  destruct (bind_all_keeps bindings (register_all table empty_Registry))
    as [Hid Hdom]. fold r in Hid, Hdom.
  split.
  - intros Hin.
    destruct (register_all_stamped table empty_Registry s Hin) as (k & Hk & Hs).
    assert (Hs' : packet_id r s = Some (KStr k)).
    { unfold packet_id in *. by rewrite Hid. }
    assert (Ht : truthy (KStr k) = true).
    { rewrite Forall_forall in Hkeys. specialize (Hkeys k Hk).
      simpl. by destruct (String.eqb_spec k ""). }
    destruct (proj2 (Hdom k) (register_all_bound table empty_Registry k Hk))
      as [p Hp].
    exists k. split; [done|]. split; [done|].
    split; eexists; (split;
      [eapply update_packet_truthy; [exact Hs'|exact Ht|exact Hp]|]);
      simpl; by rewrite lookup_insert_eq.
  - intros Hout.
    assert (Hnone : packet_id r s = None).
    { unfold packet_id. rewrite Hid.
      apply (register_all_other_struct table empty_Registry s Hout). }
    split; [by apply hookPacket_unregistered|by apply guessPacketVer_unregistered].
Qed.

(** X11. The start-up loop over a table with distinct keys and distinct
    structs binds every key to a new definition of its struct and stamps
    the key on the struct; keys that are not in the table keep their
    binding. So an identifier read off the wire finds the struct whose
    key is its decimal spelling, and any struct of the table can be
    hooked. *)
Theorem register_all_binds_table (table : list (string * Struct Data)) r :
  NoDup table.*1 →
  NoDup (sref <$> table.*2) →
  (∀ k s, (k, s) ∈ table →
     Packets_list (register_all table r) !! k
     = Some (new_Packets (s_name s) s (s_size s))
     ∧ packet_id (register_all table r) s = Some (KStr k)
     ∧ (∀ n, k = prop_name (KNum n) →
          lookup_packet (Packets_list (register_all table r)) n
          = Some (new_Packets (s_name s) s (s_size s)))
     ∧ (k ≠ "" → ∀ cb : Handler,
          ∃ r', hookPacket s cb (register_all table r) = Ok r'))
  ∧ (∀ k, k ∉ table.*1 →
       Packets_list (register_all table r) !! k = Packets_list r !! k).
Proof.
  intros Hkeys Hrefs. split; [|intros k; apply register_all_other_key].
  intros k s Hin.
  assert (Hboth : Packets_list (register_all table r) !! k
                  = Some (new_Packets (s_name s) s (s_size s))
                  ∧ packet_id (register_all table r) s = Some (KStr k)).
  { revert r Hkeys Hrefs Hin.
    induction table as [|[k0 s0] table IH]; intros r Hkeys Hrefs Hin;
      [by apply elem_of_nil in Hin|].
    rewrite register_all_cons. simpl in Hkeys, Hrefs.
    apply NoDup_cons in Hkeys as [Hk0 Hkeys].
    apply NoDup_cons in Hrefs as [Hs0 Hrefs].
    apply elem_of_cons in Hin as [[= -> ->]|Hin]; [|by apply IH].
    rewrite register_all_other_key, register_all_other_struct by done.
    split; [apply (registerPacket_lookup r (KStr k0))|].
    apply registerPacket_packet_id. }
  destruct Hboth as [Hp Hid]. split; [done|]. split; [done|]. split.
  - intros n ->. exact Hp.
  - intros Hne cb. eexists. unfold hookPacket.
    eapply update_packet_truthy; [exact Hid| |exact Hp].
    simpl. by destruct (String.eqb_spec k "").
Qed.

End RegistryComposition.

(** ** The tracked sockets *)

Section SocketComposition.
Context `{PC : PacketCrypt}.
Implicit Types (c : Connection) (socket this active : nat) (a : list nat).

Lemma indexOf_first a1 a2 x :
  x ∉ a1 → indexOf (a1 ++ x :: a2) x = Some (length a1).
Proof.
  induction a1 as [|y a1 IH]; intros Hx; simpl.
  - by rewrite decide_True.
  - apply not_elem_of_cons in Hx as [Hne Hx].
    rewrite decide_False by done. by rewrite IH.
Qed.

Lemma remove_socket_first a1 a2 x :
  x ∉ a1 → remove_socket x (a1 ++ x :: a2) = a1 ++ a2.
Proof.
  intros Hx. unfold remove_socket, splice1. rewrite indexOf_first by done.
  rewrite delete_take_drop, take_app_length, drop_app_ge by lia.
  by replace (S (length a1) - length a1) with 1 by lia.
Qed.

Lemma remove_socket_absent a x : x ∉ a → remove_socket x a = a.
Proof.
  intros Hx. unfold remove_socket.
  destruct (indexOf a x) as [idx|] eqn:Hi; [|done].
  apply indexOf_Some in Hi as [Hl _]. exfalso. apply Hx.
  apply list_elem_of_lookup. eauto.
Qed.

(** X12. [onClose] takes the first occurrence of the socket out of the
    tracked list and keeps the order of the others; a socket that is not
    tracked leaves the list alone. It never touches the active reference
    or the cipher, and for a socket that is not the active one it calls
    nothing: the keepalive timer of such a socket is not cancelled. *)
Theorem onClose_removes_first_occurrence c this :
  (this ∉ _sockets c → _sockets (onClose this c).1 = _sockets c)
  ∧ (∀ a1 a2, _sockets c = a1 ++ this :: a2 → this ∉ a1 →
       _sockets (onClose this c).1 = a1 ++ a2)
  ∧ _socket (onClose this c).1 = _socket c
  ∧ objects (onClose this c).1 = objects c
  ∧ crypt (onClose this c).1 = crypt c
  ∧ (Some this ≠ _socket c → (onClose this c).2 = []).
Proof.
  assert (Hl : _sockets (onClose this c).1 = remove_socket this (_sockets c)).
  { unfold onClose, remove_socket. by destruct (indexOf (_sockets c) this). }
  split; [intros Hx; rewrite Hl; by apply remove_socket_absent|].
  split; [intros a1 a2 Ha Hx; rewrite Hl, Ha; by apply remove_socket_first|].
  unfold onClose.
  destruct (indexOf (_sockets c) this); simpl; repeat (split; [done|]);
    intros Hne; by rewrite decide_False.
Qed.

(** X13. After [close] there is no active socket: [send] and
    [sendPacket] call nothing and a second [close] changes nothing.
    [close] closes the active socket only, takes its first occurrence out
    of the tracked list, and leaves the other tracked sockets open. *)
Theorem close_then_silent c socket :
  _socket c = Some socket →
  let c' := (close c).1 in
  _socket c' = None
  ∧ _sockets c' = remove_socket socket (_sockets c)
  ∧ (∀ other, SocketClose other ∈ (close c).2 → other = socket)
  ∧ (∀ buf, send buf c' = (c', []) ∧ sendPacket buf c' = (c', []))
  ∧ close c' = (c', []).
Proof.
  intros Hs c'. unfold c', close. rewrite Hs. simpl.
  unfold remove_socket.
  split; [done|]. split; [done|]. split.
  - intros other Hin. apply elem_of_cons in Hin as [[= ->]|Hin]; [done|].
    exfalso. apply elem_of_app in Hin as [Hin|Hin].
    + destruct (socket_izZone c socket);
        [by apply list_elem_of_singleton in Hin|by apply elem_of_nil in Hin].
    + unfold clear_ping in Hin. destruct (socket_ping c socket);
        [by apply list_elem_of_singleton in Hin|by apply elem_of_nil in Hin].
  - done.
Qed.

Lemma close_others_last active (others : list nat) last :
  active ∉ others →
  close_others active (others ++ [last]) = Some ([last], SocketClose <$> others).
Proof.
  induction others as [|x others IH]; intros Hx; [done|].
  apply not_elem_of_cons in Hx as [Hne Hx]. simpl.
  destruct (others ++ [last]) as [|y rest] eqn:Ho.
  { by destruct others. }
  rewrite decide_False by done. by rewrite IH.
Qed.

Lemma close_others_spins active (a1 a2 : list nat) :
  active ∉ a1 → a2 ≠ [] → close_others active (a1 ++ active :: a2) = None.
Proof.
  induction a1 as [|x a1 IH]; intros Hx Ha2; simpl.
  - destruct a2; [done|]. by rewrite decide_True.
  - apply not_elem_of_cons in Hx as [Hne Hx].
    destruct (a1 ++ active :: a2) as [|y rest] eqn:Ho.
    { by destruct a1. }
    rewrite decide_False by done. by rewrite IH.
Qed.

(** X14. [setPing] with an active socket that is not among the tracked
    sockets before the last one: it returns, having cancelled the old
    timer of the active socket, set the new one, and closed and dropped
    every tracked socket but the last, in order; exactly the last tracked
    socket stays. With the active socket tracked before the last one, the
    pruning loop closes the sockets in front of it and then never ends. *)
Theorem setPing_prunes_tracked c active timer :
  _socket c = Some active →
  (∀ others last,
     _sockets c = others ++ [last] → active ∉ others →
     ∃ c',
       setPing timer c
       = Some (c', clear_ping c active ++ SetInterval timer ::
                   (SocketClose <$> others))
       ∧ _sockets c' = [last]
       ∧ _socket c' = Some active
       ∧ socket_ping c' active = Some timer
       ∧ crypt c' = crypt c)
  ∧ (∀ a1 a2,
       _sockets c = a1 ++ active :: a2 → active ∉ a1 → a2 ≠ [] →
       setPing timer c = None).
Proof.
  intros Hs. split.
  - intros others last Ha Hx. unfold setPing. rewrite Hs, Ha.
    rewrite close_others_last by done.
    eexists. split; [reflexivity|]. simpl.
    split; [done|]. split; [done|]. split; [|done].
    unfold socket_ping. simpl.
    destruct (objects c !! active); by rewrite lookup_insert_eq.
  - intros a1 a2 Ha Hx Ha2. unfold setPing. rewrite Hs, Ha.
    by rewrite close_others_spins.
Qed.

(** X15. A connection that completes with success becomes the active
    one: the new socket is a new object, it is added behind the tracked
    sockets, none of which is closed, and the timer of the previous
    active socket is cancelled. [sendPacket] then reaches the new socket,
    through the cipher as [init] armed it for a zone connection, and
    untransformed otherwise, the cipher being left in the state that the
    previous connection put it in. *)
Theorem connect_hands_over c (isZone : bool) (pkt : list byte) :
  let socket := (connect isZone c).1 in
  let handed := onComplete socket isZone true (connect isZone c).2 in
  (socket ∉ dom (objects c))
  ∧ _socket handed.1 = Some socket
  ∧ _sockets handed.1 = _sockets c ++ [socket]
  ∧ handed.2
    = match _socket c with
      | Some current => clear_ping c current
      | None => []
      end ++ (if isZone then [CryptInit] else []) ++ [ConnectCallback true]
  ∧ crypt handed.1 = (if isZone then crypt_init (crypt c) else crypt c)
  ∧ (sendPacket pkt handed.1).2
    = if isZone
      then [CryptProcess pkt;
            SocketSend socket (crypt_process (crypt_init (crypt c)) pkt).2]
      else [SocketSend socket pkt].
Proof.
  intros socket handed.
  assert (Hfresh : socket ∉ dom (objects c)) by apply is_fresh.
  split; [done|].
  assert (Hclear :
            match _socket c with
            | Some current => clear_ping (connect isZone c).2 current
            | None => []
            end
            = match _socket c with
              | Some current => clear_ping c current
              | None => []
              end).
  { destruct (_socket c) as [current|]; [|done].
    unfold clear_ping, socket_ping, connect. simpl. fold socket.
    destruct (decide (current = socket)) as [->|Hne];
      [|by rewrite lookup_insert_ne].
    rewrite lookup_insert_eq. simpl.
    apply not_elem_of_dom in Hfresh. by rewrite Hfresh. }
  assert (Hnew : socket_isZone handed.1 socket = isZone).
  { unfold handed, onComplete, socket_isZone.
    pose proof (connect_object isZone c) as Ho. fold socket in Ho.
    destruct isZone; simpl in *; by rewrite Ho. }
  assert (Hactive : _socket handed.1 = Some socket)
    by (unfold handed, onComplete; by destruct isZone).
  assert (Hcrypt : crypt handed.1
                   = if isZone then crypt_init (crypt c) else crypt c)
    by (unfold handed, onComplete; by destruct isZone).
  split; [done|]. split.
  { unfold handed, onComplete. by destruct isZone. }
  split.
  { unfold handed, onComplete. destruct isZone; simpl in *;
      change (_socket (connect _ c).2) with (_socket c); by rewrite Hclear. }
  split; [done|].
  unfold sendPacket, send. rewrite Hactive, Hnew, Hcrypt.
  destruct isZone; [|done].
  by destruct (crypt_process (crypt_init (crypt c)) pkt).
Qed.

End SocketComposition.

(** ** Utilities *)

(** X16. [utilsLongToIP] writes the four bytes of its argument, lowest
    first, in decimal and separated by dots, and depends on its argument
    modulo 2^32 only. *)
Theorem utilsLongToIP_dotted_quad :
  (∀ a b c d : Z,
     (0 ≤ a < 256)%Z → (0 ≤ b < 256)%Z → (0 ≤ c < 256)%Z → (0 ≤ d < 256)%Z →
     utilsLongToIP (a + 256 * b + 65536 * c + 16777216 * d)
     = String.append (decimal (Z.to_N a))
         (String.append "."
            (String.append (decimal (Z.to_N b))
               (String.append "."
                  (String.append (decimal (Z.to_N c))
                     (String.append "." (decimal (Z.to_N d))))))))
  ∧ (∀ long k : Z, utilsLongToIP (long + k * 2 ^ 32) = utilsLongToIP long).
Proof.
  split.
  - intros a b c d Ha Hb Hc Hd. unfold utilsLongToIP, uint8_of_uint32.
    set (x := (a + 256 * b + 65536 * c + 16777216 * d)%Z).
    rewrite (Z.mod_small x) by (unfold x; lia).
    assert (x mod 256 = a)%Z as ->
      by (unfold x; Z.div_mod_to_equations; lia).
    assert (x / 256 mod 256 = b)%Z as ->
      by (unfold x; Z.div_mod_to_equations; lia).
    assert (x / 65536 mod 256 = c)%Z as ->
      by (unfold x; Z.div_mod_to_equations; lia).
    assert (x / 16777216 mod 256 = d)%Z as ->
      by (unfold x; Z.div_mod_to_equations; lia).
    reflexivity.
  - intros long k. unfold utilsLongToIP, uint8_of_uint32.
    by rewrite Z.mod_add by lia.
Qed.

Lemma utilsLongToIP_dotted_quad_witness : utilsLongToIP 16777343 = "127.0.0.1".
Proof.
  exact (proj1 utilsLongToIP_dotted_quad 127%Z 0%Z 0%Z 1%Z
           ltac:(lia) ltac:(lia) ltac:(lia) ltac:(lia)).
Defined.

(** ** The further properties at concrete inputs *)

Lemma idle_only_advancing : advancing (Packets_list Demo.idle_only).
Proof.
  assert (Packets_list Demo.idle_only
          = <["7" := set_callback "onIdle" (new_Packets "IDLE" Demo.IDLE (-1))]> ∅)
    as -> by reflexivity.
  intros k p Hk fp offset.
  apply lookup_insert_Some in Hk as [[_ <-]|[_ Hk]]; [simpl; lia|].
  by rewrite lookup_empty in Hk.
Qed.

(** X1 on the first 10 bytes of a frame of 26. *)
Lemma receive_saves_nonempty_tail_witness :
  ∃ st' evs,
    receive 5 (Packets_list Demo.guessing) (take 10 Demo.frame26) Demo.idle
    = Some (Ok (st', evs))
    ∧ (_save_buffer st' = None
       ∨ ∃ k, k < 10 ∧ _save_buffer st' = Some (drop k (take 10 Demo.frame26))
              ∧ drop k (take 10 Demo.frame26) ≠ []).
Proof.
  eexists _, _. split; [reflexivity|].
  exact (receive_saves_nonempty_tail (Packets_list Demo.guessing) 5
           (take 10 Demo.frame26) Demo.idle _ _ eq_refl).
Defined.

(** X2 on a frame of declared length 0 and one more byte. *)
Lemma receive_returns_witness :
  ∃ st' evs,
    receive 6 (Packets_list Demo.idle_only) [x07; x00; x00; x00; xff] Demo.idle
    = Some (Ok (st', evs)).
Proof.
  apply receive_returns; [apply idle_only_advancing|].
  vm_compute. lia.
Defined.

(** X3 on a frame whose packet has a guess hook, the range being one
    value already. *)
Lemma receive_without_guess_witness :
  ∃ st' evs,
    receive 5 (Packets_list Demo.guessing) Demo.frame26
      {| _save_buffer := None; read_callback := None;
         PACKETVER := {| ver_min := 5; ver_max := 5 |} |}
    = Some (Ok (st', evs))
    ∧ PACKETVER st' = {| ver_min := 5; ver_max := 5 |}
    ∧ ∀ id n, Guess id n ∉ evs.
Proof.
  eexists _, _. split; [reflexivity|].
  exact (receive_without_guess (Packets_list Demo.guessing) 5 Demo.frame26
           {| _save_buffer := None; read_callback := None;
              PACKETVER := {| ver_min := 5; ver_max := 5 |} |} _ _
           (or_introl eq_refl) eq_refl).
Defined.

(** X4 on a frame of 8 bytes. *)
Lemma receive_calls_bound_handlers_witness :
  ∃ id packet,
    lookup_packet (Packets_list Demo.hooked) id = Some packet
    ∧ callback packet = Some "onVariable".
Proof.
  destruct (receive_calls_bound_handlers (Packets_list Demo.hooked) 5
              Demo.frame8 Demo.idle _ _ "onVariable" [x01; x02; x03; x04]
              eq_refl)
    as (id & packet & _ & Hl & Hc).
  { apply elem_of_cons. right. apply elem_of_cons. by left. }
  by exists id, packet.
Defined.

(** X5 with a hook that reads the buffer to its end. *)
Lemma receive_read_hook_once_witness :
  receive 1 (Packets_list Demo.hooked) Demo.frame8 (read fp_length Demo.idle)
  = Some (Ok ({| _save_buffer := None; read_callback := None;
                 PACKETVER := Demo.ambiguous |}, [ReadHook])).
Proof.
  exact (proj2 (receive_read_hook_once (Packets_list Demo.hooked) 0 Demo.frame8
                  (read fp_length Demo.idle))
           fp_length eq_refl (λ fp, le_n _)).
Defined.


(** X7 on two handlers bound in turn. *)
Lemma hookPacket_last_wins_witness :
  ∃ r1, hookPacket Demo.FIXED26 "first" Demo.registered = Ok r1
        ∧ hookPacket Demo.FIXED26 "second" r1
          = hookPacket Demo.FIXED26 "second" Demo.registered.
Proof.
  eexists. split; [reflexivity|].
  apply (hookPacket_last_wins Demo.registered Demo.FIXED26 _ "first" "second"
           eq_refl).
Defined.

(** X8 on a handler and a guess hook for two packets. *)
Lemma bindings_commute_witness :
  ∃ r2, guessPacketVer Demo.VARIABLE (Demo.narrow_to 1) Demo.registered = Ok r2
        ∧ ∃ r12, hookPacket Demo.FIXED26 "onFixed" r2 = Ok r12.
Proof.
  destruct (bindings_commute Demo.registered Demo.FIXED26 Demo.VARIABLE _ _
              "onFixed" (Demo.narrow_to 1) eq_refl eq_refl)
    as (r2 & Hg & Hh).
  exists r2. split; [exact Hg|]. eexists. exact Hh.
Defined.

(** X9 on a struct registered under 0x0064 and then under 0x0065. *)
Lemma hookPacket_binds_last_identifier_witness :
  ∃ r',
    hookPacket Demo.FIXED26 "onFixed"
      (registerPacket (KNum 101) Demo.FIXED26
         (registerPacket (KNum 100) Demo.FIXED26 empty_Registry)) = Ok r'
    ∧ callback <$> Packets_list r' !! "101" = Some (Some "onFixed")
    ∧ callback <$> Packets_list r' !! "100" = Some None.
Proof.
  apply (hookPacket_binds_last_identifier empty_Registry Demo.FIXED26
           (KNum 100) (KNum 101) "onFixed"); [discriminate|reflexivity].
Defined.

(** X10 on two structs registered in turn under 0x0064. *)
Lemma hookPacket_after_takeover_witness :
  ∃ r',
    hookPacket Demo.FIXED26 "onFixed"
      (registerPacket (KNum 100) Demo.VARIABLE
         (registerPacket (KNum 100) Demo.FIXED26 empty_Registry)) = Ok r'
    ∧ Packets_list r' !! "100"
      = Some {| name := "VARIABLE"; struct := Demo.VARIABLE; size := -1;
                callback := Some "onFixed"; guess := None |}.
Proof.
  apply (hookPacket_after_takeover empty_Registry Demo.FIXED26 Demo.VARIABLE
           (KNum 100) "onFixed"); [discriminate|reflexivity].
Defined.

(** C9 on a table that registers the bare packet under ["0"] and the
    fixed-size packet under ["100"], after a handler was bound to the
    latter: the bare packet takes a handler and a guess hook, and the
    variable-size packet, which is not in the table, takes neither. *)
Lemma binding_needs_registration_witness :
  let r := bind_all [Hook Demo.FIXED26 "onFixed"]
             (register_all [("0", Demo.BARE); ("100", Demo.FIXED26)]
                empty_Registry) in
  (∃ k, k ∈ ["0"; "100"] ∧ packet_id r Demo.BARE = Some (KStr k)
     ∧ (∃ r', hookPacket Demo.BARE "onBare" r = Ok r'
              ∧ callback <$> Packets_list r' !! k = Some (Some "onBare"))
     ∧ (∃ r', guessPacketVer Demo.BARE (Demo.narrow_to 20130807) r = Ok r'
              ∧ guess <$> Packets_list r' !! k
                = Some (Some (Demo.narrow_to 20130807))))
  ∧ hookPacket Demo.VARIABLE "onVariable" r
    = Throw (NotYetRegister "HookPacket" "VARIABLE").
Proof.
  split.
  - apply (binding_needs_registration
             [("0", Demo.BARE); ("100", Demo.FIXED26)]
             [Hook Demo.FIXED26 "onFixed"] Demo.BARE "onBare"
             (Demo.narrow_to 20130807)).
    + by repeat constructor.
    + simpl. apply elem_of_cons. by left.
  - apply (binding_needs_registration
             [("0", Demo.BARE); ("100", Demo.FIXED26)]
             [Hook Demo.FIXED26 "onFixed"] Demo.VARIABLE "onVariable"
             (Demo.narrow_to 20130807)).
    + by repeat constructor.
    + simpl. intros Hin. repeat (apply elem_of_cons in Hin as [Hin|Hin];
        [discriminate Hin|]). by apply elem_of_nil in Hin.
Defined.

(** X11 on a table of two packets. *)
Lemma register_all_binds_table_witness :
  lookup_packet
    (Packets_list
       (register_all [("100", Demo.FIXED26); ("2748", Demo.VARIABLE)]
          (empty_Registry (Handler := string)))) 2748
  = Some (new_Packets "VARIABLE" Demo.VARIABLE (-1)).
Proof.
  assert (Hkeys : NoDup ([("100", Demo.FIXED26); ("2748", Demo.VARIABLE)].*1)).
  { apply NoDup_cons. split; [|apply NoDup_singleton].
    intros Hin. by apply list_elem_of_singleton in Hin. }
  assert (Hrefs : NoDup (sref <$> [("100", Demo.FIXED26);
                                   ("2748", Demo.VARIABLE)].*2)).
  { apply NoDup_cons. split; [|apply NoDup_singleton].
    intros Hin. by apply list_elem_of_singleton in Hin. }
  destruct (proj1 (register_all_binds_table
                     [("100", Demo.FIXED26); ("2748", Demo.VARIABLE)]
                     (empty_Registry (Handler := string)) Hkeys Hrefs)
              "2748" Demo.VARIABLE)
    as (_ & _ & Hwire & _).
  { apply elem_of_cons. right. apply elem_of_cons. by left. }
  by apply Hwire.
Defined.

(** X12 on the only socket of a zone connection. *)
Lemma onClose_removes_first_occurrence_witness :
  _sockets (onClose 0 Demo.zone_connection).1 = [].
Proof.
  apply (proj1 (proj2 (onClose_removes_first_occurrence Demo.zone_connection 0))
           [] []); [reflexivity|apply not_elem_of_nil].
Defined.

(** X13 on a zone connection. *)
Lemma close_then_silent_witness :
  send Demo.frame8 (close Demo.zone_connection).1
  = ((close Demo.zone_connection).1, []).
Proof.
  destruct (close_then_silent Demo.zone_connection 0 eq_refl)
    as (_ & _ & _ & Hsend & _).
  apply Hsend.
Defined.

(** X14 on a login connection followed by a zone connection. *)
Lemma setPing_prunes_tracked_witness :
  ∃ c',
    setPing 7 (Demo.connected true Demo.login_connection)
    = Some (c', [SetInterval 7; SocketClose 0])
    ∧ _sockets c' = [1].
Proof.
  destruct (proj1 (setPing_prunes_tracked
                     (Demo.connected true Demo.login_connection) 1 7 eq_refl)
              [0] 1 eq_refl) as (c' & Hset & Hl & _).
  { intros Hin. by apply list_elem_of_singleton in Hin. }
  exists c'. split; [exact Hset|exact Hl].
Defined.

End NetworkManager.

(** * Properties of Core/FileManager.js *)

Module FileManagerProperties.
Import FileManager.

Section Lookup.
Context `{C : Collaborators}.
Implicit Types (m : Manager) (filename : string).

Lemma append_not_empty (a b : string) :
  a ≠ "" → String.eqb (a +:+ b) "" = false.
Proof. by destruct a. Qed.

Lemma trim_end_idempotent s : trim_end (trim_end s) = trim_end s.
Proof.
  induction s as [|c s IH]; [done|]. simpl.
  destruct (is_space c && String.eqb (trim_end s) "") eqn:Hc; [done|].
  simpl. by rewrite IH, Hc.
Qed.

Lemma trim_start_fixed c s :
  is_space c = false → trim_start (String c s) = String c s.
Proof. intros H. simpl. by rewrite H. Qed.

Lemma trim_start_head s :
  trim_start s = "" ∨ ∃ c rest, trim_start s = String c rest ∧ is_space c = false.
Proof.
  induction s as [|c s IH]; [by left|]. simpl.
  destruct (is_space c) eqn:Hc; [done|]. right. by exists c, s.
Qed.

Lemma trim_idempotent s : trim (trim s) = trim s.
Proof.
  unfold trim. destruct (trim_start_head s) as [->|(c & rest & -> & Hc)]; [done|].
  simpl. rewrite Hc. simpl. rewrite Hc. simpl. rewrite Hc. simpl.
  by rewrite trim_end_idempotent.
Qed.

(** X17. [get] looks a file up in the local file system first: a file
    found there is returned whatever the archives and the remote host
    hold. Otherwise the archives are asked in the order in which they
    were added, under the name with every slash turned into a backslash,
    and the first archive that has the file gives the result. Neither
    case sends a request. *)
Theorem get_lookup_order filename (noerror : bool) m :
  (∀ file,
     FileSystem_getFile (trim filename) = Some file →
     get filename noerror m
     = (Return (Some (ArrayBuffer (file_bytes file))), []))
  ∧ (∀ before grf after buffer,
       FileSystem_getFile (trim filename) = None →
       gameFiles m = before ++ grf :: after →
       Forall (λ g, getFile g (to_backslashes (trim filename)) = None) before →
       getFile grf (to_backslashes (trim filename)) = Some buffer →
       get filename noerror m = (Return (Some (ArrayBuffer buffer)), [])).
Proof.
  split.
  - intros file Hf. unfold get. by rewrite Hf.
  - intros before grf after buffer Hf Hm Hbefore Hgrf. unfold get.
    rewrite Hf, Hm.
    assert (search_archives (to_backslashes (trim filename))
              (before ++ grf :: after) = Some buffer) as ->; [|done].
    clear Hm. induction Hbefore as [|g before Hg _ IH]; simpl;
      [by rewrite Hgrf|by rewrite Hg].
Qed.

Lemma getHTTP_truthy filename m v calls :
  getHTTP filename m = (Some v, calls) → truthy (Some v) = true.
Proof.
  unfold getHTTP.
  destruct (String.eqb_spec (remoteClient m) "") as [|Hr]; simpl; [done|].
  destruct (is_sound filename).
  { intros [= <- _]. simpl. by rewrite append_not_empty. }
  destruct (XMLHttpRequest_get _) as [|status [bytes|]]; [done| |done].
  destruct ((status =? 200)%N && negb (length bytes =? 0)); [|done].
  by intros [= <- _].
Qed.

(** X18. What [get] gives back: a value that is not null is never falsy
    (no empty address, and from the remote host no empty buffer is taken
    for a file); null is returned only when [noerror] is set; and the
    exception, the same for every file, is thrown only with [noerror]
    unset, when neither the file system nor any archive has the file. *)
Theorem get_outcome filename (noerror : bool) m r calls :
  get filename noerror m = (r, calls) →
  match r with
  | Return (Some v) => truthy (Some v) = true
  | Return None => noerror = true
  | Throw e =>
      noerror = false
      ∧ e = Error "FileManager::get() - Can't find file in GRF and remote host"
      ∧ FileSystem_getFile (trim filename) = None
      ∧ search_archives (to_backslashes (trim filename)) (gameFiles m) = None
      ∧ (getHTTP (trim filename) m).1 = None
  end.
Proof.
  unfold get.
  destruct (FileSystem_getFile (trim filename)) as [file|]; [by intros [= <- _]|].
  destruct (search_archives _ (gameFiles m)) as [buffer|]; [by intros [= <- _]|].
  destruct (getHTTP (trim filename) m) as [[v|] calls'] eqn:Hh.
  - rewrite (getHTTP_truthy _ _ _ _ Hh). simpl. intros [= <- _].
    by apply getHTTP_truthy in Hh.
  - simpl. destruct noerror; simpl; by intros [= <- _].
Qed.

(** X19. White space around a file name does not count: [get] and [load]
    give for a name what they give for the name trimmed, and trimming a
    trimmed name changes nothing. *)
Theorem names_are_trimmed filename (noerror to_rgba : bool) m :
  trim (trim filename) = trim filename
  ∧ get filename noerror m = get (trim filename) noerror m
  ∧ load filename noerror to_rgba m = load (trim filename) noerror to_rgba m.
Proof.
  split; [apply trim_idempotent|]. unfold load, get.
  by rewrite !trim_idempotent.
Qed.

(** X20. [getHTTP] sends at most one request, to the address of the
    remote client followed by the file name, and none without a remote
    client or for a name that ends in [.mp3] or [.wav], for which it
    gives the address itself. A request whose [send] throws, whose status
    is not 200, or whose response is null or empty gives null. *)
Theorem getHTTP_requests filename m :
  (remoteClient m = "" → getHTTP filename m = (None, []))
  ∧ (remoteClient m ≠ "" → is_sound filename = true →
     getHTTP filename m = (Some (Url (remoteClient m +:+ filename)), []))
  ∧ (remoteClient m ≠ "" → is_sound filename = false →
     (getHTTP filename m).2 = [Request (remoteClient m +:+ filename)]
     ∧ ∀ v, (getHTTP filename m).1 = Some v ↔
            ∃ bytes, v = ArrayBuffer bytes ∧ bytes ≠ []
                     ∧ XMLHttpRequest_get (remoteClient m +:+ filename)
                       = Response 200 (Some bytes)).
Proof.
  unfold getHTTP.
  split; [by intros ->|].
  split; [intros Hr ->; by destruct (String.eqb_spec (remoteClient m) "")|].
  intros Hr ->. destruct (String.eqb_spec (remoteClient m) ""); [done|]. simpl.
  destruct (XMLHttpRequest_get _) as [|status [bytes|]]; simpl.
  - split; [done|]. intros v. split; [done|]. by intros (? & _ & _ & ?).
  - destruct (N.eqb_spec status 200) as [->|Hs]; simpl.
    + destruct bytes as [|b bytes]; simpl.
      * split; [done|]. intros v. split; [done|].
        intros (? & _ & Hne & [= <-]). done.
      * split; [done|]. intros v. split.
        -- intros [= <-]. by eexists.
        -- by intros (? & -> & _ & [= <-]).
    + split; [done|]. intros v. split; [done|].
      intros (? & _ & _ & [= ? _]). done.
  - split; [done|]. intros v. split; [done|]. by intros (? & _ & _ & ?).
Qed.

End Lookup.

Section Archives.
Context `{C : Collaborators}.
Implicit Types (m : Manager) (file : File).

(** The archive that [addGameFile] loads from a file, if it loads. *)
Lemma addGameFile_gameFiles file m m' calls :
  addGameFile file m = (Return m', calls) →
  gameFiles m'
  = gameFiles m ++ match GameFile_load file with
                   | inl grf => [grf]
                   | inr _ => []
                   end
  ∧ remoteClient m' = remoteClient m
  ∧ onGameFileLoaded m' = onGameFileLoaded m
  ∧ onGameFileError m' = onGameFileError m.
Proof.
  unfold addGameFile, report_error.
  destruct (GameFile_load file) as [grf|message]; simpl.
  - destruct (onGameFileLoaded m) as [loaded|] eqn:Hl;
      [|by intros [= <- _]].
    destruct (loaded (file_name file)) as [thrown|];
      [|by intros [= <- _]].
    destruct (onGameFileError m) as [failed|] eqn:Hf;
      [|by intros [= <- _]].
    destruct (failed (file_name file) thrown); [done|by intros [= <- _]].
  - rewrite app_nil_r.
    destruct (onGameFileError m) as [failed|] eqn:Hf;
      [|by intros [= <- _]].
    destruct (failed (file_name file) message); [done|by intros [= <- _]].
Qed.

(** X21. What [grf.load] throws, and what the loaded-callback throws, is
    caught: [addGameFile] throws only what the error callback throws.
    When the loaded-callback throws, the archive is in the list already:
    it stays there, and the error callback is told of a failure. *)
Theorem addGameFile_catches file m :
  (∀ e, (addGameFile file m).1 = Throw e →
     ∃ failed name message thrown,
       onGameFileError m = Some failed
       ∧ failed name message = Some thrown ∧ e = Error thrown)
  ∧ (∀ grf loaded failed thrown,
       GameFile_load file = inl grf →
       onGameFileLoaded m = Some loaded →
       loaded (file_name file) = Some thrown →
       onGameFileError m = Some failed →
       failed (file_name file) thrown = None →
       addGameFile file m
       = (Return (set_gameFiles (gameFiles m ++ [grf]) m),
          [Loaded (file_name file); Failed (file_name file) thrown])).
Proof.
  split.
  - intros e. unfold addGameFile, report_error.
    destruct (GameFile_load file) as [grf|message]; simpl.
    + destruct (onGameFileLoaded m) as [loaded|]; [|done].
      destruct (loaded (file_name file)) as [thrown|]; [|done].
      destruct (onGameFileError m) as [failed|]; [|done].
      destruct (failed (file_name file) thrown) as [t|] eqn:Hf; [|done].
      intros [= <-]. by exists failed, (file_name file), thrown, t.
    + destruct (onGameFileError m) as [failed|]; [|done].
      destruct (failed (file_name file) message) as [t|] eqn:Hf; [|done].
      intros [= <-]. by exists failed, (file_name file), message, t.
  - intros grf loaded failed thrown Hl Hloaded Ht Hfailed Hf.
    unfold addGameFile, report_error. rewrite Hl. simpl.
    by rewrite Hloaded, Ht, Hfailed, Hf.
Qed.

(** X22. Adding a list of files, as [init] does at its end: when it
    returns, the archives are the ones that were there, followed by the
    archives of the files that loaded, in the order of the files. Files
    that do not load are skipped. *)
Theorem addGameFiles_keeps_order (files : list File) m m' calls :
  addGameFiles files m = (Return m', calls) →
  gameFiles m'
  = gameFiles m ++ omap (λ file, match GameFile_load file with
                                 | inl grf => Some grf
                                 | inr _ => None
                                 end) files
  ∧ remoteClient m' = remoteClient m.
Proof.
  revert m calls. induction files as [|file files IH]; intros m calls; simpl.
  - intros [= <- _]. by rewrite app_nil_r.
  - destruct (addGameFile file m) as [[m1|e] calls1] eqn:Hadd; [|done].
    destruct (addGameFiles files m1) as [r rest] eqn:Hrest.
    intros [= -> _]. apply addGameFile_gameFiles in Hadd as (Hg & Hr & _).
    apply IH in Hrest as [-> ->]. rewrite Hg, Hr. split; [|done].
    rewrite <- app_assoc. by destruct (GameFile_load file).
Qed.

End Archives.

Section Extensions.
Context `{C : Collaborators}.
Implicit Types (m : Manager) (s e base : string).

Lemma dotless_tail_cons c s :
  s ≠ "" → dotless_tail (String c s) = negb (Ascii.eqb c ".") && dotless_tail s.
Proof. by destruct s. Qed.

Lemma dotless_tail_dot base e : dotless_tail (base +:+ "." +:+ e) = false.
Proof.
  induction base as [|c base IH].
  - by destruct e.
  - change (String c base +:+ "." +:+ e) with (String c (base +:+ "." +:+ e)).
    rewrite dotless_tail_cons, IH; [apply andb_false_r|by destruct base].
Qed.

Lemma dotless_tail_end base : dotless_tail (base +:+ ".") = false.
Proof.
  induction base as [|c base IH]; [done|].
  change (String c base +:+ ".") with (String c (base +:+ ".")).
  rewrite dotless_tail_cons, IH; [apply andb_false_r|by destruct base].
Qed.

Lemma match_extension_cons c s :
  match_extension (String c s)
  = if negb (is_line_terminator c) && dotless_tail s then Some (String c s)
    else match_extension s.
Proof. reflexivity. Qed.

(** X23. The extension that [load] switches on is what follows the last
    dot of the trimmed name, in lower case. A name without a dot has for
    extension all that follows its first character. A name that is
    empty, of one character, or ends with a dot has none, and [load]
    throws a TypeError for it before it looks anything up. *)
Theorem extension_of_name :
  (∀ base e, dotless_tail e = true →
     extension (base +:+ "." +:+ e) = Some (toLowerCase e))
  ∧ (∀ c rest, is_line_terminator c = false → dotless_tail rest = true →
       extension (String c rest) = Some (toLowerCase rest))
  ∧ (∀ base, extension (base +:+ ".") = None)
  ∧ extension "" = None
  ∧ (∀ c, extension (String c "") = None)
  ∧ (∀ filename (noerror to_rgba : bool) m,
       extension (trim filename) = None →
       load filename noerror to_rgba m = (Throw TypeError, [])).
Proof.
  split; [|split; [|split; [|split; [|split]]]].
  - intros base e He. unfold extension.
    assert (match_extension (base +:+ "." +:+ e) = Some ("." +:+ e)) as ->;
      [|done].
    induction base as [|c base IH].
    + change ("" +:+ "." +:+ e) with (String "." e).
      by rewrite match_extension_cons, He.
    + change (String c base +:+ "." +:+ e) with (String c (base +:+ "." +:+ e)).
      by rewrite match_extension_cons, dotless_tail_dot, andb_false_r.
  - intros c rest Hc Hrest. unfold extension.
    by rewrite match_extension_cons, Hc, Hrest.
  - intros base. unfold extension.
    assert (match_extension (base +:+ ".") = None) as ->; [|done].
    induction base as [|c base IH]; [done|].
    change (String c base +:+ ".") with (String c (base +:+ ".")).
    by rewrite match_extension_cons, dotless_tail_end, andb_false_r.
  - done.
  - intros c. unfold extension. rewrite match_extension_cons.
    by rewrite andb_false_r.
  - intros filename noerror to_rgba m He. unfold load. by rewrite He.
Qed.

Lemma text_of_app a b :
  x00 ∉ a → text_of (a ++ x00 :: b) = string_of_list_byte a.
Proof.
  induction a as [|x a IH]; intros Ha; [done|].
  apply not_elem_of_cons in Ha as [Hx Ha]. simpl.
  destruct (Byte.eqb x x00) eqn:Heq.
  - apply Byte.byte_dec_bl in Heq. congruence.
  - by rewrite IH.
Qed.

Lemma text_of_whole a : x00 ∉ a → text_of a = string_of_list_byte a.
Proof.
  induction a as [|x a IH]; intros Ha; [done|].
  apply not_elem_of_cons in Ha as [Hx Ha]. simpl.
  destruct (Byte.eqb x x00) eqn:Heq.
  - apply Byte.byte_dec_bl in Heq. congruence.
  - by rewrite IH.
Qed.

(** X24. A file with the extension [txt], [xml] or [lua] is loaded as
    text: one character for each byte up to the first zero byte, or to
    the end if there is none; what follows a zero byte is dropped. The
    text gives back the bytes it was made from. *)
Theorem load_text filename (noerror to_rgba : bool) m ext a calls :
  extension (trim filename) = Some ext →
  ext ∈ ["txt"; "xml"; "lua"] →
  x00 ∉ a →
  (∀ b, get (trim filename) noerror m
        = (Return (Some (ArrayBuffer (a ++ x00 :: b))), calls) →
        load filename noerror to_rgba m
        = (Return (Some (Text (string_of_list_byte a))), calls))
  ∧ (get (trim filename) noerror m = (Return (Some (ArrayBuffer a)), calls) →
     load filename noerror to_rgba m
     = (Return (Some (Text (string_of_list_byte a))), calls))
  ∧ list_byte_of_string (string_of_list_byte a) = a.
Proof.
  intros He Hext Ha.
  assert (Hconv : ∀ buffer, convert ext to_rgba buffer = Text (text_of_value buffer)).
  { intros buffer. repeat (apply elem_of_cons in Hext as [->|Hext]; [done|]).
    by apply elem_of_nil in Hext. }
  split; [|split].
  - intros b Hget. unfold load. rewrite He, Hget. simpl.
    by rewrite Hconv, <- (text_of_app a b Ha).
  - intros Hget. unfold load. rewrite He, Hget. simpl.
    by rewrite Hconv, <- (text_of_whole a Ha).
  - apply list_byte_of_string_of_list_byte.
Qed.

End Extensions.

(** ** The properties at concrete inputs *)

#[local] Existing Instance Demo.collaborators.

(** X17 on a file that is both on disk and in the archive, and on a file
    of the archive. *)
Lemma get_lookup_order_witness :
  get "local.txt" false (Demo.with_archive "")
  = (Return (Some (ArrayBuffer [x6c; x6f])), [])
  ∧ get " data/readme.txt " false (Demo.with_archive "")
    = (Return (Some (ArrayBuffer Demo.readme_bytes)), []).
Proof.
  split.
  - exact (proj1 (get_lookup_order "local.txt" false (Demo.with_archive ""))
             {| file_name := "local.txt"; file_bytes := [x6c; x6f] |} eq_refl).
  - eapply (proj2 (get_lookup_order " data/readme.txt " false
                     (Demo.with_archive "")) []);
      [reflexivity|reflexivity|constructor|reflexivity].
Defined.

(** X18 on a file that nobody has. *)
Lemma get_outcome_witness :
  (get "none.txt" false (Demo.with_archive "http://host/")).1
  = Throw (Error "FileManager::get() - Can't find file in GRF and remote host")
  ∧ search_archives "none.txt" (gameFiles (Demo.with_archive "http://host/"))
    = None.
Proof.
  pose proof (get_outcome "none.txt" false (Demo.with_archive "http://host/")
                _ _ eq_refl) as (_ & He & _ & Ha & _).
  split; [reflexivity|exact Ha].
Defined.

(** X20 on a sound file. *)
Lemma getHTTP_requests_witness :
  getHTTP "bgm/01.mp3" (Demo.empty "http://host/")
  = (Some (Url "http://host/bgm/01.mp3"), []).
Proof.
  apply (proj1 (proj2 (getHTTP_requests "bgm/01.mp3" (Demo.empty "http://host/"))));
    [discriminate|reflexivity].
Defined.

(** X21 with a loaded-callback that throws. *)
Lemma addGameFile_catches_witness :
  ∃ m',
    addGameFile Demo.data_grf
      {| remoteClient := ""; gameFiles := [];
         onGameFileLoaded := Some (λ _, Some "boom");
         onGameFileError := Some (λ _ _, None) |}
    = (Return m', [Loaded "data.grf"; Failed "data.grf" "boom"])
    ∧ length (gameFiles m') = 1.
Proof.
  eexists. split.
  - eapply (proj2 (addGameFile_catches Demo.data_grf
                     {| remoteClient := ""; gameFiles := [];
                        onGameFileLoaded := Some (λ _, Some "boom");
                        onGameFileError := Some (λ _ _, None) |}));
      reflexivity.
  - reflexivity.
Defined.

(** X22 on a file that does not load followed by one that does. *)
Lemma addGameFiles_keeps_order_witness :
  ∃ m' calls,
    addGameFiles [Demo.broken_grf; Demo.data_grf] (Demo.empty "")
    = (Return m', calls)
    ∧ length (gameFiles m') = 1.
Proof.
  destruct (addGameFiles [Demo.broken_grf; Demo.data_grf] (Demo.empty ""))
    as [[m'|e] calls] eqn:Hadd; [|discriminate Hadd].
  exists m', calls. split; [reflexivity|].
  rewrite (proj1 (addGameFiles_keeps_order _ _ _ _ Hadd)).
  reflexivity.
Defined.

(** X23 on a name in capitals. *)
Lemma extension_of_name_witness : extension "data/x.TXT" = Some "txt".
Proof.
  exact (proj1 extension_of_name "data/x" "TXT" eq_refl).
Defined.

(** X24 on a text file of the archive with a zero byte in it. *)
Lemma load_text_witness :
  load " data/readme.txt " false false (Demo.with_archive "")
  = (Return (Some (Text "hi")), []).
Proof.
  apply (proj1 (load_text " data/readme.txt " false false
                  (Demo.with_archive "") "txt" [x68; x69] []
                  eq_refl ltac:(apply elem_of_cons; by left)
                  ltac:(intros Hin;
                        repeat (apply elem_of_cons in Hin as [Hin|Hin];
                                [discriminate Hin|]);
                        by apply elem_of_nil in Hin)) [x21]).
  reflexivity.
Defined.

End FileManagerProperties.
